(** * Log scanning and aggregation engine: a shallow embedding

    Source: [logs_categorizer.py].  Text is modelled as [string] over 8-bit
    characters (code points below 256); on that range Python's Unicode
    [\d], [\s], [str.strip] and case folding are the functions written
    out below.  The file system is an explicit value passed through [main]:
    a tree of directories and files with a working directory, in which a
    path is resolved name by name as the system does ([..] included); a
    function that can raise returns a [result], an [option] or a flag, and
    the run ends with an exit status.  The library calls follow Python
    3.11 on Linux. *)

From Stdlib Require Import Ascii String.
From stdpp Require Import base option list strings gmap sorting pretty.

Set Warnings "-abstract-large-number".

Local Open Scope string_scope.
Local Open Scope list_scope.
Local Open Scope nat_scope.

(** ** Characters *)

Definition code (c : ascii) : nat := nat_of_ascii c.

Definition in_range (lo hi : nat) (c : ascii) : bool :=
  (lo <=? code c) && (code c <=? hi).

(** [\d] on a [str] pattern: the decimal digits. *)
Definition is_digit (c : ascii) : bool := in_range 48 57 c.

(** [\s] on a [str] pattern and [str.isspace]: TAB..CR, FS..US, SPACE,
    NEL (0x85) and NBSP (0xA0). *)
Definition is_space (c : ascii) : bool :=
  in_range 9 13 c || in_range 28 32 c || (code c =? 133) || (code c =? 160).

(** [str.lower] of one character: A-Z and the Latin-1 capitals but the
    multiplication sign (0xD7). *)
Definition lower (c : ascii) : ascii :=
  if in_range 65 90 c || (in_range 192 222 c && negb (code c =? 215))
  then ascii_of_nat (code c + 32) else c.

(** The capital whose [lower] is the given small letter, when there is one
    below 256. *)
Definition upcase (c : ascii) : ascii :=
  if in_range 97 122 c || (in_range 224 254 c && negb (code c =? 247))
  then ascii_of_nat (code c - 32) else c.

Definition NL : ascii := ascii_of_nat 10.

(** The letters outside ASCII of the program's messages, by code point. *)
Definition chr (n : nat) : string := String (ascii_of_nat n) "".
Definition a_acute : string := chr 225.
Definition a_tilde : string := chr 227.
Definition e_circ : string := chr 234.
Definition U_acute : string := chr 218.

(** ** Regular expressions

    The fragment of Python's [re] syntax that the patterns of the program
    use.  Every quantifier in those patterns applies to a one-character
    item, so repetition is over a character set. *)

Inductive cset : Type :=
| CLit (c : ascii)
| CDot
| CDigit
| CSpace
| CRange (lo hi : ascii)
| COr (a b : cset).

Inductive regex : Type :=
| REps
| RSet (c : cset)
| RRep (c : cset) (lo : nat) (hi : option nat) (greedy : bool)
| RCat (r1 r2 : regex)
| RAlt (r1 r2 : regex)
| RGroup (n : nat) (r : regex)
| REnd.

Fixpoint cset_has (c : cset) (x : ascii) : bool :=
  match c with
  | CLit y => bool_decide (x = y)
  | CDot => negb (bool_decide (x = NL))
  | CDigit => is_digit x
  | CSpace => is_space x
  | CRange lo hi => in_range (code lo) (code hi) x
  | COr a b => cset_has a x || cset_has b x
  end.

(** One character against a set; [ic] is [re.IGNORECASE]. *)
Definition accepts (ic : bool) (c : cset) (x : ascii) : bool :=
  if ic then cset_has c (lower x) || cset_has c (upcase (lower x))
  else cset_has c x.

Definition orelse {A} (a b : option A) : option A :=
  match a with Some x => Some x | None => b end.

Definition hi_allows (hi : option nat) : bool :=
  match hi with Some 0 => false | _ => true end.

(** Backtracking repetition [c{lo,hi}]: greedy tries one more character
    first, lazy tries the continuation first. *)
Fixpoint rep {A} (ic : bool) (c : cset) (greedy : bool) (lo : nat)
    (hi : option nat) (s : string) (k : string → option A) : option A :=
  let more :=
    match s with
    | String x s' =>
        if accepts ic c x && hi_allows hi
        then rep ic c greedy (pred lo) (pred <$> hi) s' k
        else None
    | EmptyString => None
    end in
  let stop := if lo =? 0 then k s else None in
  if greedy then orelse more stop else orelse stop more.

Definition caps : Type := list (nat * string).

(** The characters consumed between the suffix [s] and its suffix [s']. *)
Definition taken (s s' : string) : string :=
  String.substring 0 (String.length s - String.length s') s.

(** [$]: at the end, or just before a final newline. *)
Definition at_end (s : string) : bool :=
  match s with
  | EmptyString => true
  | String x EmptyString => bool_decide (x = NL)
  | _ => false
  end.

(** The backtracking matcher, in continuation-passing style: [k] receives
    the unread suffix and the groups captured so far. *)
Fixpoint rmatch {A} (ic : bool) (r : regex) (s : string) (cs : caps)
    (k : string → caps → option A) : option A :=
  match r with
  | REps => k s cs
  | RSet c =>
      match s with
      | String x s' => if accepts ic c x then k s' cs else None
      | EmptyString => None
      end
  | RRep c lo hi g => rep ic c g lo hi s (λ s', k s' cs)
  | RCat r1 r2 => rmatch ic r1 s cs (λ s' cs', rmatch ic r2 s' cs' k)
  | RAlt r1 r2 => orelse (rmatch ic r1 s cs k) (rmatch ic r2 s cs k)
  | RGroup n r => rmatch ic r s cs (λ s' cs', k s' ((n, taken s s') :: cs'))
  | REnd => if at_end s then k s cs else None
  end.

(** A match object: [group(0)] and the numbered groups. *)
Record match_obj : Type := MatchObj { group0 : string; groups : caps }.

Fixpoint assoc (n : nat) (cs : caps) : option string :=
  match cs with
  | [] => None
  | (m, v) :: cs' => if m =? n then Some v else assoc n cs'
  end.

(** [m.group(n)]; a group that took no part gives the empty string here
    (the patterns of the program have none). *)
Definition group (n : nat) (m : match_obj) : string :=
  if n =? 0 then group0 m else default "" (assoc n (groups m)).

(** [re.match]: anchored at the start. *)
Definition re_match (ic : bool) (r : regex) (s : string) : option match_obj :=
  rmatch ic r s [] (λ s' cs, Some (MatchObj (taken s s') cs)).

(** [re.search]: the leftmost start position that gives a match. *)
Fixpoint re_search (ic : bool) (r : regex) (s : string) : option match_obj :=
  orelse (re_match ic r s)
    match s with
    | String _ s' => re_search ic r s'
    | EmptyString => None
    end.

(** ** Pattern syntax

    [re_compile] reads the pattern source as Python writes it, so that the
    registries below hold the very strings of the program.  A construct
    outside the fragment gives [None]. *)

Inductive item : Type :=
| ISet (c : cset)
| IEnd.

Definition is_alnum (x : ascii) : bool :=
  is_digit x || in_range 65 90 x || in_range 97 122 x.

(** An escape [\x]: a class, or the character itself when it is not a
    letter or a digit. *)
Definition p_escape (x : ascii) : option cset :=
  if bool_decide (x = "s"%char) then Some CSpace
  else if bool_decide (x = "d"%char) then Some CDigit
  else if is_alnum x then None
  else Some (CLit x).

Definition cset_add (acc : option cset) (c : cset) : option cset :=
  Some (match acc with Some a => COr a c | None => c end).

(** The inside of [[...]], after the opening bracket. *)
Fixpoint p_set (s : string) (acc : option cset) : option (cset * string) :=
  match s with
  | EmptyString => None
  | String a rest =>
      if bool_decide (a = "]"%char) then (λ c, (c, rest)) <$> acc
      else if bool_decide (a = "^"%char) then None
      else if bool_decide (a = "\"%char) then
        match rest with
        | String x s' => c ← p_escape x; p_set s' (cset_add acc c)
        | EmptyString => None
        end
      else
        match rest with
        | String d (String b s') =>
            if bool_decide (d = "-"%char) && negb (bool_decide (b = "]"%char))
            then
              if bool_decide (b = "\"%char) then None
              else p_set s' (cset_add acc (CRange a b))
            else p_set rest (cset_add acc (CLit a))
        | _ => p_set rest (cset_add acc (CLit a))
        end
  end.

(** One item that stands for a single character, or [$]. *)
Definition p_item (s : string) : option (item * string) :=
  match s with
  | EmptyString => None
  | String a rest =>
      if bool_decide (a = "\"%char) then
        match rest with
        | String x s' => c ← p_escape x; Some (ISet c, s')
        | EmptyString => None
        end
      else if bool_decide (a = "["%char) then
        '(c, s') ← p_set rest None; Some (ISet c, s')
      else if bool_decide (a = "."%char) then Some (ISet CDot, rest)
      else if bool_decide (a = "$"%char) then Some (IEnd, rest)
      else if bool_decide (a ∈ ["*"; "+"; "?"; "{"; "^"]%char) then None
      else Some (ISet (CLit a), rest)
  end.

Fixpoint p_digits (s : string) (acc : option nat) : option nat * string :=
  match s with
  | String a rest =>
      if is_digit a
      then p_digits rest (Some (10 * default 0 acc + (code a - 48)))
      else (acc, s)
  | EmptyString => (acc, s)
  end.

(** The bounds of a quantifier at the head of [s], if there is one. *)
Definition p_bounds (s : string) : option (option (nat * option nat) * string) :=
  match s with
  | String a rest =>
      if bool_decide (a = "*"%char) then Some (Some (0, None), rest)
      else if bool_decide (a = "+"%char) then Some (Some (1, None), rest)
      else if bool_decide (a = "?"%char) then Some (Some (0, Some 1), rest)
      else if bool_decide (a = "{"%char) then
        match p_digits rest None with
        | (Some n, String b rest') =>
            if bool_decide (b = "}"%char) then Some (Some (n, Some n), rest')
            else if bool_decide (b = ","%char) then
              match p_digits rest' None with
              | (m, String e rest'') =>
                  if bool_decide (e = "}"%char)
                  then Some (Some (n, m), rest'') else None
              | _ => None
              end
            else None
        | _ => None
        end
      else Some (None, s)
  | EmptyString => Some (None, s)
  end.

(** An item with its quantifier; a [?] after the quantifier makes it lazy. *)
Definition p_piece (s : string) : option (regex * string) :=
  '(it, s1) ← p_item s;
  '(b, s2) ← p_bounds s1;
  match it, b with
  | ISet c, None => Some (RSet c, s2)
  | IEnd, None => Some (REnd, s2)
  | ISet c, Some (lo, hi) =>
      match s2 with
      | String a s3 =>
          if bool_decide (a = "?"%char) then Some (RRep c lo hi false, s3)
          else if bool_decide (a = "+"%char) then None
          else Some (RRep c lo hi true, s2)
      | EmptyString => Some (RRep c lo hi true, s2)
      end
  | IEnd, Some _ => None
  end.

(** Alternation and concatenation; [g] is the number of the next group. *)
Fixpoint p_alt (f : nat) (s : string) (g : nat) : option (regex * string * nat) :=
  match f with
  | 0 => None
  | S f' =>
      '(r1, s1, g1) ← p_cat f' s g;
      match s1 with
      | String a s2 =>
          if bool_decide (a = "|"%char)
          then '(r2, s3, g2) ← p_alt f' s2 g1; Some (RAlt r1 r2, s3, g2)
          else Some (r1, s1, g1)
      | EmptyString => Some (r1, s1, g1)
      end
  end
with p_cat (f : nat) (s : string) (g : nat) : option (regex * string * nat) :=
  match f with
  | 0 => None
  | S f' =>
      match s with
      | EmptyString => Some (REps, s, g)
      | String a rest =>
          if bool_decide (a ∈ ["|"; ")"]%char) then Some (REps, s, g)
          else if bool_decide (a = "("%char) then
            '(r, s1, g1) ← p_alt f' rest (S g);
            match s1 with
            | String b s2 =>
                if bool_decide (b = ")"%char) then
                  '(q, _) ← p_bounds s2;
                  match q with
                  | Some _ => None
                  | None =>
                      '(r', s3, g2) ← p_cat f' s2 g1;
                      Some (RCat (RGroup g r) r', s3, g2)
                  end
                else None
            | EmptyString => None
            end
          else
            '(r, s1) ← p_piece s;
            '(r', s2, g1) ← p_cat f' s1 g;
            Some (RCat r r', s2, g1)
      end
  end.

(** [re.compile]: the whole source must be read. *)
Definition re_compile (pat : string) : option regex :=
  match p_alt (2 * String.length pat + 2) pat 1 with
  | Some (r, EmptyString, _) => Some r
  | _ => None
  end.

(** ** 1) Error patterns *)

Definition ERROR_PATTERNS : list (string * string) :=
  [ ("NetworkError", "nsUtils.*err:\s*5|network\s+list.*err:\s*5");
    ("TunnelError", "CTunnelMgr.*No tunnel found|tunnel.*not\s+found");
    ("Proxy403", "HTTP\s+response\s+code:\s*403|forbidden");
    ("RecordingCorrupted", "corrupted\s+recording|Failed to finalize record|Recovery process failed to recover");
    ("PSM_DuplicateSession", "Duplicated session was (created|deleted)|Session UUID.*was unregistered");
    ("PSM_VaultIssues", "Attempting to delete the Vault user session|Vault session .* does not exist|Open vault file operation (success|fail)");
    ("PSM_ListenerLogoff", "PSM listener.*logoff|TSSession logoff event");
    ("PSM_InternalConn", "InternalConnectionClient.*(has stopped|Terminating session process)");
    ("Auth_TicketMissing", "Ticket ID was not found|Failed to find session identifiers|session LUID was not found") ].

(** ** 2) Auxiliary patterns *)

Definition TS_PATTERNS : list string :=
  [ "\[(\d{2}/\d{2}/\d{4}).*?\|";
    "(\d{4}-\d{2}-\d{2}[ T]\d{2}:\d{2}:\d{2})" ].

Definition UUID_REGEX : string :=
  "[0-9a-f]{8}-[0-9a-f]{4}-[0-9a-f]{4}-[0-9a-f]{4}-[0-9a-f]{12}".

Definition SESSION_ID_REGEX : string := "session id[:\s]\s*(\d+)".

(** The pattern of the inner test of [extract_timestamp]. *)
Definition DMY_REGEX : string := "\d{2}/\d{2}/\d{4}$".

(** The pattern [datetime.strptime] builds for the format [%d/%m/%Y]; its
    named groups d, m and Y are numbered 1, 2 and 3 here. *)
Definition STRPTIME_DMY_REGEX : string :=
  "(3[0-1]|[1-2]\d|0[1-9]|[1-9]| [1-9])/(1[0-2]|0[1-9]|[1-9])/(\d\d\d\d)".

(** A registry compiled pattern by pattern; a pattern that does not compile
    makes the whole compilation fail, as the exception of [re.compile]
    does. *)
Definition compile_all (ps : list (string * string)) : option (list (string * regex)) :=
  mapM (λ p, r ← re_compile p.2; Some (p.1, r)) ps.

Definition compiled : list (string * regex) :=
  Eval vm_compute in default [] (compile_all ERROR_PATTERNS).

Definition ts_compiled : list regex :=
  Eval vm_compute in default [] (mapM re_compile TS_PATTERNS).

Definition uuid_compiled : regex :=
  Eval vm_compute in default REps (re_compile UUID_REGEX).

Definition session_id_compiled : regex :=
  Eval vm_compute in default REps (re_compile SESSION_ID_REGEX).

Definition dmy_compiled : regex :=
  Eval vm_compute in default REps (re_compile DMY_REGEX).

Definition strptime_dmy_compiled : regex :=
  Eval vm_compute in default REps (re_compile STRPTIME_DMY_REGEX).

(** ** Dates and times *)

Record datetime : Type := DateTime {
  year : nat; month : nat; day : nat;
  hour : nat; minute : nat; second : nat
}.

Definition is_leap (y : nat) : bool :=
  (y mod 4 =? 0) && (negb (y mod 100 =? 0) || (y mod 400 =? 0)).

Definition days_in_month (y m : nat) : nat :=
  match m with
  | 2 => if is_leap y then 29 else 28
  | 4 | 6 | 9 | 11 => 30
  | _ => 31
  end.

(** The range checks of the [datetime] constructor ([ValueError] is [None]). *)
Definition mk_datetime (y m d hh mm ss : nat) : option datetime :=
  if (1 <=? y) && (y <=? 9999) && (1 <=? m) && (m <=? 12)
     && (1 <=? d) && (d <=? days_in_month y m)
     && (hh <? 24) && (mm <? 60) && (ss <? 60)
  then Some (DateTime y m d hh mm ss) else None.

Fixpoint lstrip (s : string) : string :=
  match s with
  | String a rest => if is_space a then lstrip rest else s
  | EmptyString => s
  end.

(** [s.strip()]. *)
Definition strip (s : string) : string :=
  String.rev (lstrip (String.rev (lstrip s))).

(** The number that a string of decimal digits writes. *)
Fixpoint int_of_digits (s : string) (acc : nat) : option nat :=
  match s with
  | EmptyString => Some acc
  | String a rest =>
      if is_digit a then int_of_digits rest (10 * acc + (code a - 48)) else None
  end.

(** [int(s)] for the fields of a date: digits, white space around them
    allowed. *)
Definition parse_int (s : string) : option nat :=
  match strip s with
  | EmptyString => None
  | t => int_of_digits t 0
  end.

(** [datetime.strptime(val, "%d/%m/%Y")]: the format's pattern must match
    the whole of [val], and the fields must make a date. *)
Definition strptime_dmy (val : string) : option datetime :=
  m ← re_match true strptime_dmy_compiled val;
  if String.length (group 0 m) =? String.length val then
    d ← parse_int (group 1 m);
    mo ← parse_int (group 2 m);
    y ← parse_int (group 3 m);
    mk_datetime y mo d 0 0 0
  else None.

(** The last [w] decimal digits of [n], the most significant first: the
    format [%0wd] for [n] below [10^w]. *)
Fixpoint zdec (w n : nat) (acc : string) : string :=
  match w with
  | 0 => acc
  | S w' => zdec w' (n / 10) (String (ascii_of_nat (48 + n mod 10)) acc)
  end.

(** [dt.isoformat()] of a datetime without microseconds or zone. *)
Definition isoformat (dt : datetime) : string :=
  zdec 4 (year dt) "-" +:+ zdec 2 (month dt) "-" +:+ zdec 2 (day dt) "T"
  +:+ zdec 2 (hour dt) ":" +:+ zdec 2 (minute dt) ":" +:+ zdec 2 (second dt) "".

Definition all_digits (s : string) : bool :=
  forallb is_digit (list_ascii_of_string s).

(** The field of [w] digits at offset [i], followed by the character [sep]
    when one is given. *)
Definition field (s : string) (i w : nat) (sep : option ascii) : option nat :=
  let f := String.substring i w s in
  if (String.length f =? w) && all_digits f
     && match sep with
        | Some c => bool_decide (String.get (i + w) s = Some c)
        | None => true
        end
  then int_of_digits f 0 else None.

(** [datetime.fromisoformat] on the layout [YYYY-MM-DD?HH:MM:SS] (any
    character between date and time), which is the layout of every string
    of the program that it can parse; other layouts (date only, fractions,
    offsets) are not modelled and give [None], the [ValueError]. *)
Definition fromisoformat (s : string) : option datetime :=
  if String.length s =? 19 then
    y ← field s 0 4 (Some "-"%char);
    mo ← field s 5 2 (Some "-"%char);
    d ← field s 8 2 None;
    hh ← field s 11 2 (Some ":"%char);
    mm ← field s 14 2 (Some ":"%char);
    ss ← field s 17 2 None;
    mk_datetime y mo d hh mm ss
  else None.

(** Comparison of naive datetimes: field by field. *)
Definition dt_key (dt : datetime) : list nat :=
  [year dt; month dt; day dt; hour dt; minute dt; second dt].

Fixpoint lex_lt (a b : list nat) : bool :=
  match a, b with
  | x :: a', y :: b' => (x <? y) || ((x =? y) && lex_lt a' b')
  | [], _ :: _ => true
  | _, _ => false
  end.

Definition dt_lt (a b : datetime) : bool := lex_lt (dt_key a) (dt_key b).
Definition dt_le (a b : datetime) : bool := negb (dt_lt b a).

(** ** Metadata extraction *)

(** [s.replace(" ", "T")]. *)
Fixpoint replace_space_T (s : string) : string :=
  match s with
  | EmptyString => EmptyString
  | String a rest =>
      String (if bool_decide (a = " "%char) then "T"%char else a) (replace_space_T rest)
  end.

(** The body of the loop of [extract_timestamp] once [pat] has matched:
    both the normal returns and the [except] clause return a string. *)
Definition normalize_timestamp (m : match_obj) : string :=
  let val := group 1 m in
  if re_match false dmy_compiled val is Some _ then
    match strptime_dmy val with
    | Some dt => isoformat dt
    | None => val
    end
  else
    let val := replace_space_T val in
    match fromisoformat val with
    | Some _ => val
    | None => val
    end.

Fixpoint extract_timestamp_with (pats : list regex) (line : string) : option string :=
  match pats with
  | [] => None
  | pat :: rest =>
      match re_search false pat line with
      | Some m => Some (normalize_timestamp m)
      | None => extract_timestamp_with rest line
      end
  end.

Definition extract_timestamp (line : string) : option string :=
  extract_timestamp_with ts_compiled line.

Definition extract_uuid (line : string) : option string :=
  group 0 <$> re_search true uuid_compiled line.

Definition extract_session_id (line : string) : option string :=
  group 1 <$> re_search true session_id_compiled line.

(** ** Paths and the file system

    A [Path] is its tuple of parts ([PurePosixPath.parts]): the root, when
    there is one, is the first part.  Paths are equal when their parts are,
    and are ordered part by part, each part as a string.  Several paths
    can name the same place of the file system, and several places can
    hold the same file (the same inode). *)

Abbreviation Path := (list string).

Definition SLASH : ascii := "/"%char.

(** [s.split("/")]; [cur] holds the current piece, reversed. *)
Fixpoint split_slash (s : string) (cur : string) : list string :=
  match s with
  | EmptyString => [String.rev cur]
  | String a rest =>
      if bool_decide (a = SLASH) then String.rev cur :: split_slash rest ""
      else split_slash rest (String a cur)
  end.

(** The root of a POSIX path: exactly two leading slashes are kept, any
    other number of them is one. *)
Definition path_root (s : string) : list string :=
  match s with
  | String a (String b (String c _)) =>
      if bool_decide (a = SLASH) then
        if bool_decide (b = SLASH) && negb (bool_decide (c = SLASH))
        then ["//"] else ["/"]
      else []
  | String a (String b EmptyString) =>
      if bool_decide (a = SLASH) then
        if bool_decide (b = SLASH) then ["//"] else ["/"]
      else []
  | String a EmptyString => if bool_decide (a = SLASH) then ["/"] else []
  | EmptyString => []
  end.

(** [Path(s)]: empty and [.] components are dropped, [..] is kept. *)
Definition Path_of (s : string) : Path :=
  path_root s ++ filter (λ c, c ≠ "" ∧ c ≠ ".") (split_slash s "").

Fixpoint join (sep : string) (l : list string) : string :=
  match l with
  | [] => ""
  | [x] => x
  | x :: rest => x +:+ sep +:+ join sep rest
  end.

Definition is_root (x : string) : bool :=
  bool_decide (x = "/") || bool_decide (x = "//").

(** [str(p)]. *)
Definition path_str (p : Path) : string :=
  match p with
  | [] => "."
  | x :: rest => if is_root x then x +:+ join "/" rest else join "/" p
  end.

(** [p.name]. *)
Definition path_name (p : Path) : string :=
  match last p with
  | Some x => if is_root x then "" else x
  | None => ""
  end.

(** [p / other]: an anchored [other] replaces [p]. *)
Definition path_join (p other : Path) : Path :=
  match other with
  | x :: _ => if is_root x then other else p ++ other
  | [] => p
  end.

Fixpoint path_compare (p q : Path) : comparison :=
  match p, q with
  | [], [] => Eq
  | [], _ :: _ => Lt
  | _ :: _, [] => Gt
  | x :: p', y :: q' =>
      match String.compare x y with
      | Eq => path_compare p' q'
      | c => c
      end
  end.

Definition path_leb (p q : Path) : bool :=
  match path_compare p q with Gt => false | _ => true end.

(** [sorted]: a stable sort, here by insertion from the right. *)
Fixpoint insert_sorted {A} (leb : A → A → bool) (x : A) (l : list A) : list A :=
  match l with
  | [] => [x]
  | y :: l' => if leb x y then x :: l else y :: insert_sorted leb x l'
  end.

Definition sorted {A} (leb : A → A → bool) (l : list A) : list A :=
  foldr (insert_sorted leb) [] l.

Inductive node : Type :=
| NDir
| NFile (ino : nat).

Global Instance node_eq_dec : EqDecision node.
Proof. solve_decision. Defined.

(** What a file holds, and where reading it fails, if it does: after that
    many lines, with that message. *)
Record file_data : Type := FileData {
  content : string;
  fault : option (nat * string)
}.

(** The errors of the system calls that the program makes.  [ENUL] stands
    for the [ValueError] that Python raises, before any call, for a path
    with a NUL character in it. *)
Inductive errno : Type :=
| ENOENT | ENOTDIR | EACCES | ENAMETOOLONG | EEXIST | EISDIR | ENUL.

Global Instance errno_eq_dec : EqDecision errno.
Proof. solve_decision. Defined.

(** A call returns or raises. *)
Inductive result (A : Type) : Type :=
| Ok (a : A)
| Err (e : errno).

Arguments Ok {A} a.
Arguments Err {A} e.

Global Instance result_bind : MBind result :=
  λ A B f r, match r with Ok a => f a | Err e => Err e end.

(** The file system is a tree.  A location is the list of the names from
    the root down to it; [nodes] says what is at a location, and the root
    is always a directory.  [cwd] is the location of the working directory.
    Two locations can hold the same file (the same inode).  [denied] are
    the directories that the process may neither search, list nor change.
    Symbolic links are not modelled. *)
Record filesystem : Type := MkFS {
  cwd : list string;
  nodes : gmap (list string) node;
  store : gmap nat file_data;
  denied : gset (list string)
}.

Definition NAME_MAX : nat := 255.
Definition PATH_MAX : nat := 4096.

(** The number of bytes of the UTF-8 form of a text of code points below
    256. *)
Definition utf8_length (s : string) : nat :=
  sum_list ((λ a, if code a <? 128 then 1 else 2) <$> list_ascii_of_string s).

Definition entry (fs : filesystem) (loc : list string) : option node :=
  match loc with
  | [] => Some NDir
  | _ => nodes fs !! loc
  end.

(** The location above; the root is above itself. *)
Definition up (loc : list string) : list string :=
  take (length loc - 1) loc.

(** One step of the walk along a path: from the directory at [loc], which
    must be one that the process may search, to the entry called [x]. *)
Definition enter (fs : filesystem) (loc : list string) (x : string)
    : result (list string) :=
  match entry fs loc with
  | None => Err ENOENT
  | Some (NFile _) => Err ENOTDIR
  | Some NDir =>
      if bool_decide (loc ∈ denied fs) then Err EACCES
      else if bool_decide (x = "..") then Ok (up loc)
      else if NAME_MAX <? utf8_length x then Err ENAMETOOLONG
      else Ok (loc ++ [x])
  end.

Fixpoint walk (fs : filesystem) (loc : list string) (names : list string)
    : result (list string) :=
  match names with
  | [] => Ok loc
  | x :: rest =>
      match enter fs loc x with
      | Ok loc' => walk fs loc' rest
      | Err e => Err e
      end
  end.

(** The names of a path after its root, and where its walk starts. *)
Definition names_of (p : Path) : list string :=
  match p with
  | x :: rest => if is_root x then rest else p
  | [] => []
  end.

Definition start_of (fs : filesystem) (p : Path) : list string :=
  match p with
  | x :: _ => if is_root x then [] else cwd fs
  | [] => cwd fs
  end.

Definition has_nul (p : Path) : bool :=
  existsb (λ x, existsb (λ a, code a =? 0) (list_ascii_of_string x)) p.

(** The location that a path names, whether something is there or not: the
    system refuses a path of [PATH_MAX] bytes or more before it walks. *)
Definition locate (fs : filesystem) (p : Path) : result (list string) :=
  if has_nul p then Err ENUL
  else if PATH_MAX <=? utf8_length (path_str p) then Err ENAMETOOLONG
  else walk fs (start_of fs p) (names_of p).

(** [os.stat(p)]. *)
Definition stat (fs : filesystem) (p : Path) : result node :=
  loc ← locate fs p;
  match entry fs loc with
  | Some n => Ok n
  | None => Err ENOENT
  end.

(** What a path names, when it names something. *)
Definition node_at (fs : filesystem) (p : Path) : option node :=
  match stat fs p with
  | Ok n => Some n
  | Err _ => None
  end.

(** The errors that [Path.is_dir] and [Path.is_file] answer with [False]:
    those of [_ignore_error], of which the model has two, and the
    [ValueError]; they raise the others again ([None]). *)
Definition ignored (e : errno) : bool :=
  match e with
  | ENOENT | ENOTDIR | ENUL => true
  | _ => false
  end.

Definition is_dir (fs : filesystem) (p : Path) : option bool :=
  match stat fs p with
  | Ok NDir => Some true
  | Ok (NFile _) => Some false
  | Err e => if ignored e then Some false else None
  end.

Definition is_file (fs : filesystem) (p : Path) : option bool :=
  match stat fs p with
  | Ok (NFile _) => Some true
  | Ok NDir => Some false
  | Err e => if ignored e then Some false else None
  end.

(** [fnmatch(name, "*.txt")], case-sensitive. *)
Definition ends_with_txt (name : string) : bool :=
  bool_decide (String.substring (String.length name - 4) 4 name = ".txt").

(** A name that a directory listing can give. *)
Definition entry_name (x : string) : bool :=
  negb (bool_decide (x = "")) && negb (bool_decide (x = "."))
  && negb (bool_decide (x = ".."))
  && forallb (λ a, negb (bool_decide (a = SLASH)) && negb (code a =? 0))
       (list_ascii_of_string x)
  && (utf8_length x <=? NAME_MAX).

(** [os.scandir] lists the directory at [loc]. *)
Definition listable (fs : filesystem) (loc : list string) : bool :=
  bool_decide (entry fs loc = Some NDir) && negb (bool_decide (loc ∈ denied fs)).

(** The walk of [rglob] from the directory at [base] finds the entry at
    [loc]: it is below [base], and every directory from [base] down to the
    one that holds it could be listed. *)
Definition found (fs : filesystem) (base loc : list string) : bool :=
  bool_decide (take (length base) loc = base) && (length base <? length loc)
  && bool_decide (is_Some (nodes fs !! loc))
  && forallb (λ k, listable fs (take k loc)) (seq (length base) (length loc - length base))
  && forallb entry_name (drop (length base) loc).

(** [p.rglob("*.txt")] of Python 3.11, as a list in the order of the map
    (the order of a directory walk is not fixed).  The entries found are
    spelled from [p]; directories whose name matches are among them.  A
    directory that may not be listed is passed over ([PermissionError]),
    one whose spelling is too long for the system stops the walk with its
    [OSError] ([None]). *)
Definition rglob_txt (fs : filesystem) (p : Path) : option (list Path) :=
  match is_dir fs p, locate fs p with
  | None, _ => None
  | Some true, Ok base =>
      let locs := (map_to_list (nodes fs)).*1 in
      let spelled := λ loc, p ++ drop (length base) loc in
      let dirs := filter (λ loc, found fs base loc ∧ entry fs loc = Some NDir) locs in
      if existsb (λ loc, PATH_MAX <=? utf8_length (path_str (spelled loc))) dirs
      then None
      else Some (spelled <$> filter (λ loc, found fs base loc
                                           ∧ ends_with_txt (path_name loc)) locs)
  | _, _ => Some []
  end.

(** ** 3) Input files *)

(** The warning for an input that names nothing. *)
Definition not_found (inp : string) : string :=
  "[WARN] Caminho n" +:+ a_tilde +:+ "o encontrado: " +:+ inp.

(** The loop of [iter_input_files]: the list [files] before
    [sorted(set(files))], or [None] when a call raised, and the warnings
    printed up to there. *)
Fixpoint collect_inputs (fs : filesystem) (inputs : list string)
    : option (list Path) * list string :=
  match inputs with
  | [] => (Some [], [])
  | inp :: rest =>
      let p := Path_of inp in
      match is_dir fs p with
      | None => (None, [])
      | Some true =>
          match rglob_txt fs p with
          | None => (None, [])
          | Some found =>
              let '(files, warns) := collect_inputs fs rest in
              ((found ++.) <$> files, warns)
          end
      | Some false =>
          match is_file fs p with
          | None => (None, [])
          | Some true =>
              let '(files, warns) := collect_inputs fs rest in
              ((p ::.) <$> files, warns)
          | Some false =>
              let '(files, warns) := collect_inputs fs rest in
              (files, not_found inp :: warns)
          end
      end
  end.

(** [set(files)] iterates in an order of its own; it has no duplicates, so
    the stable sort of any of its orders is the same list. *)
Definition iter_input_files (fs : filesystem) (inputs : list string)
    : option (list Path) :=
  (λ files, sorted path_leb (remove_dups files)) <$> (collect_inputs fs inputs).1.

(** ** Reading a file line by line *)

Definition CR : ascii := ascii_of_nat 13.

(** The lines a text file gives, newlines translated ([\r\n] and [\r]
    become [\n]) and kept; [cur] holds the current line, reversed. *)
Fixpoint readlines (s : string) (cur : string) : list string :=
  match s with
  | EmptyString =>
      match cur with EmptyString => [] | _ => [String.rev cur] end
  | String a rest =>
      if bool_decide (a = NL) then String.rev (String NL cur) :: readlines rest ""
      else if bool_decide (a = CR) then
        match rest with
        | String b rest' =>
            if bool_decide (b = NL)
            then String.rev (String NL cur) :: readlines rest' ""
            else String.rev (String NL cur) :: readlines rest ""
        | EmptyString => [String.rev (String NL cur)]
        end
      else readlines rest (String a cur)
  end.

(** [str(e)] of the exception of a call on [p]. *)
Definition strerror (e : errno) : string :=
  match e with
  | ENOENT => "[Errno 2] No such file or directory"
  | ENOTDIR => "[Errno 20] Not a directory"
  | EACCES => "[Errno 13] Permission denied"
  | ENAMETOOLONG => "[Errno 36] File name too long"
  | EEXIST => "[Errno 17] File exists"
  | EISDIR => "[Errno 21] Is a directory"
  | ENUL => "embedded null byte"
  end.

Definition oserror (e : errno) (p : Path) : string :=
  match e with
  | ENUL => strerror e
  | _ => strerror e +:+ ": '" +:+ path_str p +:+ "'"
  end.

(** The lines that the loop over an opened file sees before it ends or an
    exception leaves it, and the message of that exception. *)
Definition open_lines (fs : filesystem) (p : Path) : list string * option string :=
  match stat fs p with
  | Ok (NFile i) =>
      match store fs !! i with
      | Some d =>
          let ls := readlines (content d) "" in
          match fault d with
          | Some (n, msg) => (take n ls, Some msg)
          | None => (ls, None)
          end
      | None => ([], Some ("[Errno 5] Input/output error: '" +:+ path_str p +:+ "'"))
      end
  | Ok NDir => ([], Some (oserror EISDIR p))
  | Err e => ([], Some (oserror e p))
  end.

(** ** 4) Line analysis *)

Record Occurrence : Type := MkOccurrence {
  error_name : string;
  file : string;
  line : nat;
  timestamp : string;
  session_uuid : string;
  session_id : string;
  message : string
}.

Record SummaryEntry : Type := MkSummaryEntry {
  s_error_name : string;
  count : nat;
  first_seen : string;
  last_seen : string;
  files : list string;
  sample_message : string
}.

(** The dictionary [summary], in insertion order. *)
Abbreviation Summary := (list (string * SummaryEntry)).

Record scan_state : Type := ScanState {
  occurrences : list Occurrence;
  summary : Summary;
  errlog : list string
}.

Fixpoint dict_get (d : Summary) (k : string) : option SummaryEntry :=
  match d with
  | [] => None
  | (k', v) :: d' => if bool_decide (k' = k) then Some v else dict_get d' k
  end.

(** [d[k] = v]: in place when the key is there, at the end when it is new. *)
Fixpoint dict_set (d : Summary) (k : string) (v : SummaryEntry) : Summary :=
  match d with
  | [] => [(k, v)]
  | (k', v') :: d' =>
      if bool_decide (k' = k) then (k', v) :: d' else (k', v') :: dict_set d' k v
  end.

(** [s.add(x)]. *)
Definition set_add (x : string) (s : list string) : list string :=
  if bool_decide (x ∈ s) then s else s ++ [x].

(** [ts or ""] and the truth value of [ts]. *)
Definition or_empty (ts : option string) : string := default "" ts.

Definition truthy (ts : option string) : bool :=
  match ts with
  | Some s => negb (bool_decide (s = ""))
  | None => false
  end.

Definition with_count (e : SummaryEntry) (n : nat) : SummaryEntry :=
  MkSummaryEntry (s_error_name e) n (first_seen e) (last_seen e) (files e) (sample_message e).

Definition with_files (e : SummaryEntry) (fl : list string) : SummaryEntry :=
  MkSummaryEntry (s_error_name e) (count e) (first_seen e) (last_seen e) fl (sample_message e).

Definition with_first_seen (e : SummaryEntry) (ts : string) : SummaryEntry :=
  MkSummaryEntry (s_error_name e) (count e) ts (last_seen e) (files e) (sample_message e).

Definition with_last_seen (e : SummaryEntry) (ts : string) : SummaryEntry :=
  MkSummaryEntry (s_error_name e) (count e) (first_seen e) ts (files e) (sample_message e).

(** The [if ts:] block: empty bounds are filled, then the three strings are
    parsed; when one of them does not parse the [except] clause leaves the
    entry as it is at that point. *)
Definition update_bounds (e : SummaryEntry) (ts : string) : SummaryEntry :=
  let e := if bool_decide (first_seen e = "") then with_first_seen e ts else e in
  let e := if bool_decide (last_seen e = "") then with_last_seen e ts else e in
  match fromisoformat (replace_space_T (first_seen e)),
        fromisoformat (replace_space_T (last_seen e)),
        fromisoformat (replace_space_T ts) with
  | Some fdt, Some ldt, Some cdt =>
      let e := if dt_lt cdt fdt then with_first_seen e ts else e in
      if dt_lt ldt cdt then with_last_seen e ts else e
  | _, _, _ => e
  end.

(** The update of [summary] for one occurrence. *)
Definition ingest (d : Summary) (name fpath : string) (ts : option string)
    (msg : string) : Summary :=
  let e :=
    match dict_get d name with
    | Some e => e
    | None => MkSummaryEntry name 0 (or_empty ts) (or_empty ts) [] msg
    end in
  let e := with_count e (count e + 1) in
  let e := with_files e (set_add fpath (files e)) in
  let e := if truthy ts then update_bounds e (or_empty ts) else e in
  dict_set d name e.

(** The body run for the pattern that matched. *)
Definition on_match (name : string) (fpath : Path) (lineno : nat) (ln : string)
    (st : scan_state) : scan_state :=
  let ts := extract_timestamp ln in
  let uuid := extract_uuid ln in
  let sid := extract_session_id ln in
  let msg := strip ln in
  let occ := MkOccurrence name (path_str fpath) lineno (or_empty ts)
               (or_empty uuid) (or_empty sid) msg in
  ScanState (occurrences st ++ [occ])
            (ingest (summary st) name (path_str fpath) ts msg)
            (errlog st).

(** The loop over the compiled patterns, left by [break] at the first one
    that matches. *)
Fixpoint scan_line (pats : list (string * regex)) (fpath : Path) (lineno : nat)
    (ln : string) (st : scan_state) : scan_state :=
  match pats with
  | [] => st
  | (name, cregex) :: rest =>
      if re_search true cregex ln is Some _
      then on_match name fpath lineno ln st
      else scan_line rest fpath lineno ln st
  end.

(** The loop over [enumerate(fh, start=lineno)]. *)
Fixpoint scan_lines (pats : list (string * regex)) (fpath : Path) (lineno : nat)
    (lns : list string) (st : scan_state) : scan_state :=
  match lns with
  | [] => st
  | ln :: rest =>
      scan_lines pats fpath (S lineno) rest (scan_line pats fpath lineno ln st)
  end.

(** The report of a failed read. *)
Definition read_error (fpath : Path) (e : string) : string :=
  "[ERRO] Falha lendo " +:+ path_str fpath +:+ ": " +:+ e.

(** One file: the lines read are scanned; an exception is reported and the
    next file follows. *)
Definition scan_file (pats : list (string * regex)) (fs : filesystem)
    (st : scan_state) (fpath : Path) : scan_state :=
  let '(lns, err) := open_lines fs fpath in
  let st := scan_lines pats fpath 1 lns st in
  match err with
  | Some e =>
      ScanState (occurrences st) (summary st) (errlog st ++ [read_error fpath e])
  | None => st
  end.

Definition string_leb (a b : string) : bool := String.leb a b.

(** The last loop: each set of files becomes a sorted list. *)
Definition finalize (d : Summary) : Summary :=
  map (λ kv, (kv.1, with_files kv.2 (sorted string_leb (files kv.2)))) d.

Definition analyze_files_with (pats : list (string * regex)) (fs : filesystem)
    (fls : list Path) : scan_state :=
  let st := foldl (scan_file pats fs) (ScanState [] [] []) fls in
  ScanState (occurrences st) (finalize (summary st)) (errlog st).

Definition analyze_files (fs : filesystem) (fls : list Path) : scan_state :=
  analyze_files_with compiled fs fls.

(** ** 5) Reports *)

Definition QUOTE : string := chr 34.
Definition CRLF : string := chr 13 +:+ chr 10.

Definition str_of_nat (n : nat) : string := pretty n.

Fixpoint string_concat_map (f : ascii → string) (s : string) : string :=
  match s with
  | EmptyString => ""
  | String a rest => f a +:+ string_concat_map f rest
  end.

Definition string_exists (f : ascii → bool) (s : string) : bool :=
  existsb f (list_ascii_of_string s).

(** A field of the [csv] writer (dialect excel, minimal quoting). *)
Definition csv_field (s : string) : string :=
  if string_exists (λ a, bool_decide (a ∈ [","%char; ascii_of_nat 34; CR; NL])) s
  then QUOTE
       +:+ string_concat_map
             (λ a, if bool_decide (a = ascii_of_nat 34)
                   then QUOTE +:+ QUOTE else String a "") s
       +:+ QUOTE
  else s.

Definition csv_row (fields : list string) : string :=
  join "," (csv_field <$> fields) +:+ CRLF.

Definition csv_occurrences (occs : list Occurrence) : string :=
  csv_row ["error_name"; "file"; "line"; "message"]
  +:+ join "" ((λ occ, csv_row [error_name occ; file occ; str_of_nat (line occ);
                                message occ]) <$> occs).

(** The sort key [(-count, name)] of the summary rows. *)
Definition row_leb (a b : string * SummaryEntry) : bool :=
  (count b.2 <? count a.2)
  || ((count a.2 =? count b.2) && string_leb a.1 b.1).

Definition summary_rows (d : Summary) : Summary := sorted row_leb d.

Definition csv_summary (d : Summary) : string :=
  csv_row ["error_name"; "count"; "first_seen"; "last_seen"; "files"; "sample_message"]
  +:+ join "" ((λ kv, csv_row [s_error_name kv.2; str_of_nat (count kv.2);
                               first_seen kv.2; last_seen kv.2;
                               join ";" (files kv.2); sample_message kv.2])
               <$> summary_rows d).

(** [x or "-"]. *)
Definition or_dash (s : string) : string :=
  if bool_decide (s = "") then "-" else s.

Definition markdown (d : Summary) : string :=
  let total := sum_list (count ∘ snd <$> d) in
  let nl := chr 10 in
  let head :=
    [ "# Sum" +:+ a_acute +:+ "rio de Erros Detectados" +:+ nl;
      "- Total de categorias de erro: **" +:+ str_of_nat (length d) +:+ "**";
      "- Total de ocorr" +:+ e_circ +:+ "ncias: **" +:+ str_of_nat total +:+ "**" +:+ nl ] in
  let body :=
    match d with
    | [] => [ "> Nenhum erro mapeado." +:+ nl ]
    | _ =>
        [ "| Erro | Ocorr" +:+ e_circ +:+ "ncias | Primeiro visto | "
          +:+ U_acute +:+ "ltimo visto | Arquivos afetados |";
          "|---|---:|---|---|---|" ]
        ++ ((λ kv,
              "| " +:+ kv.1 +:+ " | " +:+ str_of_nat (count kv.2)
              +:+ " | " +:+ or_dash (first_seen kv.2)
              +:+ " | " +:+ or_dash (last_seen kv.2)
              +:+ " | "
              +:+ or_dash (join ", " ((path_name ∘ Path_of) <$> files kv.2))
              +:+ " |") <$> summary_rows d)
    end in
  join nl (head ++ body).

Definition hex_digit (n : nat) : string :=
  String.substring n 1 "0123456789abcdef".

(** A JSON string with [ensure_ascii=False]. *)
Definition json_string (s : string) : string :=
  QUOTE
  +:+ string_concat_map
        (λ a, let n := code a in
              if n =? 34 then "\" +:+ QUOTE
              else if n =? 92 then "\\"
              else if n =? 10 then "\n"
              else if n =? 13 then "\r"
              else if n =? 9 then "\t"
              else if n =? 12 then "\f"
              else if n =? 8 then "\b"
              else if n <? 32 then "\u00" +:+ hex_digit (n / 16) +:+ hex_digit (n mod 16)
              else String a "") s
  +:+ QUOTE.

Definition json_entry (kv : string * SummaryEntry) : string :=
  let nl := chr 10 in
  "  " +:+ json_string kv.1 +:+ ": {" +:+ nl
  +:+ "    " +:+ json_string "error_name" +:+ ": " +:+ json_string (s_error_name kv.2) +:+ "," +:+ nl
  +:+ "    " +:+ json_string "count" +:+ ": " +:+ str_of_nat (count kv.2) +:+ "," +:+ nl
  +:+ "    " +:+ json_string "first_seen" +:+ ": " +:+ json_string (first_seen kv.2) +:+ "," +:+ nl
  +:+ "    " +:+ json_string "last_seen" +:+ ": " +:+ json_string (last_seen kv.2) +:+ "," +:+ nl
  +:+ "    " +:+ json_string "files" +:+ ": "
  +:+ match files kv.2 with
      | [] => "[]"
      | fl => "[" +:+ nl
              +:+ join ("," +:+ nl) ((λ f, "      " +:+ json_string f) <$> fl)
              +:+ nl +:+ "    ]"
      end +:+ "," +:+ nl
  +:+ "    " +:+ json_string "sample_message" +:+ ": " +:+ json_string (sample_message kv.2) +:+ nl
  +:+ "  }".

(** [json.dump(summary, ensure_ascii=False, indent=2)]. *)
Definition json_dump (d : Summary) : string :=
  match d with
  | [] => "{}"
  | _ => "{" +:+ chr 10 +:+ join ("," +:+ chr 10) (json_entry <$> d) +:+ chr 10 +:+ "}"
  end.

(** ** Writing to the file system *)

Definition add_dir (fs : filesystem) (loc : list string) : filesystem :=
  MkFS (cwd fs) (<[loc := NDir]> (nodes fs)) (store fs) (denied fs).

(** [os.mkdir(p)]: the directory that holds the new one must be there, and
    nothing may be at the place of the new one. *)
Definition os_mkdir (fs : filesystem) (p : Path) : result filesystem :=
  loc ← locate fs p;
  match last (names_of p) with
  | None => Err EEXIST
  | Some x =>
      if bool_decide (x = "..") then Err EEXIST
      else match entry fs loc with
           | Some _ => Err EEXIST
           | None => Ok (add_dir fs loc)
           end
  end.

(** [p.mkdir(parents=False, exist_ok=True)]: an [OSError] other than
    [FileNotFoundError] is passed over when [p] is a directory.  The flag
    says whether the call returned. *)
Definition mkdir_once (fs : filesystem) (p : Path) : filesystem * bool :=
  match os_mkdir fs p with
  | Ok fs' => (fs', true)
  | Err ENOENT => (fs, false)
  | Err ENUL => (fs, false)
  | Err _ => (fs, bool_decide (is_dir fs p = Some true))
  end.

(** [p], [p.parent], its parent, and so on up to the path that is its own
    parent. *)
Definition lineage (p : Path) : list Path :=
  let lo := match p with
            | x :: _ => if is_root x then 1 else 0
            | [] => 0
            end in
  (λ k, take k p) <$> reverse (seq lo (S (length p) - lo)).

(** [p.mkdir(parents=True, exist_ok=True)] along the lineage of [p]: on
    [FileNotFoundError] the parent is made first, in the same way, and
    then [p] itself; at the top of the lineage the error is raised. *)
Fixpoint mkdir_chain (fs : filesystem) (chain : list Path) : filesystem * bool :=
  match chain with
  | [] => (fs, false)
  | p :: ups =>
      match os_mkdir fs p with
      | Ok fs' => (fs', true)
      | Err ENOENT =>
          let '(fs1, ok) := mkdir_chain fs ups in
          if ok then mkdir_once fs1 p else (fs1, false)
      | Err ENUL => (fs, false)
      | Err _ => (fs, bool_decide (is_dir fs p = Some true))
      end
  end.

Definition mkdir_parents (fs : filesystem) (p : Path) : filesystem * bool :=
  mkdir_chain fs (lineage p).

Definition node_ino (n : node) : gset nat :=
  match n with NFile i => {[ i ]} | NDir => ∅ end.

Definition used_inos (fs : filesystem) : gset nat :=
  dom (store fs) ∪ map_fold (λ _ n acc, node_ino n ∪ acc) ∅ (nodes fs).

(** [p.open("w")] and the write: an existing file is replaced, a new one
    needs its directory; [None] is the exception. *)
Definition write_text (fs : filesystem) (p : Path) (s : string) : option filesystem :=
  match locate fs p with
  | Err _ => None
  | Ok loc =>
      match entry fs loc with
      | Some NDir => None
      | Some (NFile i) =>
          Some (MkFS (cwd fs) (nodes fs)
                  (<[i := FileData s (d ← store fs !! i; fault d)]> (store fs))
                  (denied fs))
      | None =>
          match last (names_of p) with
          | None => None
          | Some x =>
              if bool_decide (x = "..") then None
              else
                let i := fresh (used_inos fs) in
                Some (MkFS (cwd fs) (<[loc := NFile i]> (nodes fs))
                        (<[i := FileData s None]> (store fs)) (denied fs))
          end
      end
  end.

(** ** 6) Command line *)

Record Args : Type := MkArgs {
  input : list string;
  output : string;
  basename : string;
  export_json : bool
}.

Record outcome : Type := Outcome {
  exit_status : nat;
  fs_after : filesystem;
  stdout : list string;
  stderr : list string
}.

(** The report paths of a run. *)
Definition det_csv_path (args : Args) : Path :=
  path_join (Path_of (output args)) (Path_of (basename args +:+ "_erros_detalhados.csv")).
Definition sum_csv_path (args : Args) : Path :=
  path_join (Path_of (output args)) (Path_of (basename args +:+ "_erros_resumo.csv")).
Definition md_path (args : Args) : Path :=
  path_join (Path_of (output args)) (Path_of (basename args +:+ "_RELATORIO_SUMARIO.md")).
Definition json_path (args : Args) : Path :=
  path_join (Path_of (output args)) (Path_of (basename args +:+ "_resumo.json")).

(** An exception that nothing catches ends the run with status 1. *)
Definition crash (fs : filesystem) (out err : list string) : outcome :=
  Outcome 1 fs out (err ++ ["Traceback (most recent call last):"]).

Definition main (args : Args) (fs : filesystem) : outcome :=
  let outdir := Path_of (output args) in
  let '(fs, ok) := mkdir_parents fs outdir in
  if negb ok then crash fs [] [] else
  let warns := (collect_inputs fs (input args)).2 in
  match iter_input_files fs (input args) with
  | None => crash fs [] warns
  | Some [] => Outcome 2 fs [] (warns ++ ["[ERRO] Nenhum arquivo de entrada encontrado."])
  | Some fls =>
      let out := ["[INFO] Analisando " +:+ str_of_nat (length fls) +:+ " arquivo(s)..."] in
      let st := analyze_files fs fls in
      let err := warns ++ errlog st in
      match write_text fs (det_csv_path args) (csv_occurrences (occurrences st)) with
      | None => crash fs out err
      | Some fs =>
      match write_text fs (sum_csv_path args) (csv_summary (summary st)) with
      | None => crash fs out err
      | Some fs =>
      match write_text fs (md_path args) (markdown (summary st)) with
      | None => crash fs out err
      | Some fs =>
      let done :=
        [ "[OK] Detalhado CSV: " +:+ path_str (det_csv_path args);
          "[OK] Resumo CSV:    " +:+ path_str (sum_csv_path args);
          "[OK] Markdown:      " +:+ path_str (md_path args) ] in
      if export_json args then
        match write_text fs (json_path args) (json_dump (summary st)) with
        | None => crash fs out err
        | Some fs =>
            Outcome 0 fs (out ++ ["[OK] JSON: " +:+ path_str (json_path args)] ++ done) err
        end
      else Outcome 0 fs (out ++ done) err
      end end end
  end.

(** ** Quantities the properties speak of *)

(** [sum(entry.count for entry in summary)]. *)
Definition sum_counts (d : Summary) : nat := sum_list (count ∘ snd <$> d).

(** The instant the program reads in a stored timestamp. *)
Definition parse_instant (s : string) : option datetime :=
  fromisoformat (replace_space_T s).

Definition init_state : scan_state := ScanState [] [] [].

(** The entry that [ingest] stores. *)
Definition ingested (d : Summary) (name fpath : string) (ts : option string)
    (msg : string) : SummaryEntry :=
  let e := default (MkSummaryEntry name 0 (or_empty ts) (or_empty ts) [] msg)
             (dict_get d name) in
  let e := with_files (with_count e (count e + 1)) (set_add fpath (files e)) in
  if truthy ts then update_bounds e (or_empty ts) else e.

(** The invariant that every step of the scan keeps. *)
Definition counted (st : scan_state) : Prop :=
  sum_counts (summary st) = length (occurrences st)
  ∧ Forall (λ kv, 1 ≤ count kv.2) (summary st).

(** The bounds of an entry are in order: they are the same string, or both
    are read as instants and the first is not after the last. *)
Definition bounded (e : SummaryEntry) : Prop :=
  first_seen e = last_seen e
  ∨ ∃ f l, parse_instant (first_seen e) = Some f
           ∧ parse_instant (last_seen e) = Some l
           ∧ dt_le f l = true.

(** ** A small file system for the examples

    The working directory is [/srv]; in it a directory [logs] with two
    files.  Reading the second fails after two lines. *)

Definition nl : string := String NL "".

(** A file that holds the example line of the specification. *)
Definition example_line_fs : filesystem :=
  MkFS ["srv"]
       (list_to_map [ (["srv"], NDir); (["srv"; "app.txt"], NFile 1) ])
       (list_to_map
          [ (1, FileData ("2025-04-10 12:00:00 nsUtils failed err: 5" +:+ nl) None) ])
       ∅.

Definition example_fs : filesystem :=
  MkFS ["srv"]
    (list_to_map
       [ (["srv"], NDir);
         (["srv"; "logs"], NDir);
         (["srv"; "logs"; "a.txt"], NFile 1);
         (["srv"; "logs"; "b.txt"], NFile 2) ])
    (list_to_map
       [ (1, FileData
               ("2025-04-10 12:00:00 nsUtils failed err: 5" +:+ nl
                +:+ "2025-04-09 08:00:00 tunnel not found, forbidden" +:+ nl
                +:+ "2025-04-08 09:30:00 nsUtils err: 5" +:+ nl)
               None);
         (2, FileData
               ("HTTP response code: 403" +:+ nl
                +:+ "[31/02/2025 | x] forbidden" +:+ nl
                +:+ "tunnel not found" +:+ nl)
               (Some (2, "[Errno 5] Input/output error"))) ])
    ∅.

(** Nothing recorded in [st] is lost in [st']: the occurrences of [st]
    begin those of [st'], and every entry of [st] is still there with a
    count that is not smaller. *)
Definition retained (st st' : scan_state) : Prop :=
  occurrences st `prefix_of` occurrences st'
  ∧ ∀ name e, dict_get (summary st) name = Some e →
      ∃ e', dict_get (summary st') name = Some e' ∧ count e ≤ count e'.

(** [fs'] is [fs] with nothing but new directories: the files hold what
    they held, and a location holds what it held unless it held nothing and
    now holds a directory. *)
Definition only_new_dirs (fs fs' : filesystem) : Prop :=
  cwd fs' = cwd fs ∧ denied fs' = denied fs ∧ store fs' = store fs
  ∧ ∀ loc, nodes fs' !! loc = nodes fs !! loc
           ∨ (nodes fs !! loc = None ∧ nodes fs' !! loc = Some NDir).

(** The orders that [sorted] is used with, as relations. *)
Definition path_le (p q : Path) : Prop := path_leb p q = true.
Definition str_le (a b : string) : Prop := string_leb a b = true.

(** Some pattern of the registry is found in the line. *)
Definition matched (pats : list (string * regex)) (ln : string) : bool :=
  existsb (λ p, if re_search true p.2 ln is Some _ then true else false) pats.

(** The number of lines in which some pattern is found. *)
Definition hits (pats : list (string * regex)) (lns : list string) : nat :=
  length (filter (λ ln, matched pats ln = true) lns).

(** The header of the summary CSV and the line of one entry, as
    [writeheader] and [writerow] write them. *)
Definition SUMMARY_FIELDS : list string :=
  ["error_name"; "count"; "first_seen"; "last_seen"; "files"; "sample_message"].

Definition summary_line (kv : string * SummaryEntry) : string :=
  csv_row [s_error_name kv.2; str_of_nat (count kv.2); first_seen kv.2;
           last_seen kv.2; join ";" (files kv.2); sample_message kv.2].

(** The summary CSV of a run to which the directory walk and the set of
    files hand the paths over in the order [listing]. *)
Definition summary_csv_of_run (fs : filesystem) (listing : list Path) : string :=
  csv_summary (summary (analyze_files fs (sorted path_leb (remove_dups listing)))).

(** The order of the rows of the summary, as a relation. *)
Definition row_le (a b : string * SummaryEntry) : Prop := row_leb a b = true.

(** Two lists have the same elements. *)
Definition same_elements (l1 l2 : list Path) : bool :=
  forallb (λ p, bool_decide (p ∈ l2)) l1 && forallb (λ p, bool_decide (p ∈ l1)) l2.

(** ** What a match is

    The matcher above decides by search; [matches ic r s cs s' cs'] says
    what it finds: [r] reads [s] down to its suffix [s'], the groups going
    from [cs] to [cs']. *)

Definition all_accepted (ic : bool) (c : cset) (pre : string) : Prop :=
  forallb (accepts ic c) (list_ascii_of_string pre) = true.

Inductive matches (ic : bool) : regex → string → caps → string → caps → Prop :=
| m_eps s cs : matches ic REps s cs s cs
| m_set c x s cs :
    accepts ic c x = true → matches ic (RSet c) (String x s) cs s cs
| m_rep c lo hi g pre s cs :
    all_accepted ic c pre →
    lo ≤ String.length pre →
    (∀ h, hi = Some h → String.length pre ≤ h) →
    matches ic (RRep c lo hi g) (pre +:+ s) cs s cs
| m_cat r1 r2 s cs s1 cs1 s2 cs2 :
    matches ic r1 s cs s1 cs1 → matches ic r2 s1 cs1 s2 cs2 →
    matches ic (RCat r1 r2) s cs s2 cs2
| m_alt_l r1 r2 s cs s' cs' :
    matches ic r1 s cs s' cs' → matches ic (RAlt r1 r2) s cs s' cs'
| m_alt_r r1 r2 s cs s' cs' :
    matches ic r2 s cs s' cs' → matches ic (RAlt r1 r2) s cs s' cs'
| m_group n r s cs s' cs' :
    matches ic r s cs s' cs' →
    matches ic (RGroup n r) s cs s' ((n, taken s s') :: cs')
| m_end s cs : at_end s = true → matches ic REnd s cs s cs.

(** The two layouts of [TS_PATTERNS], compiled. *)
Definition TS_BRACKET : regex := Eval vm_compute in default REps (ts_compiled !! 0).
Definition TS_ISO : regex := Eval vm_compute in default REps (ts_compiled !! 1).

(** ** Aggregation, replayed from the occurrences *)

(** The timestamp of an occurrence as [ingest] receives it: the field holds
    [ts or ""], and [ingest] looks at [ts] through [ts or ""] and its truth
    value only. *)
Definition occurrence_ts (occ : Occurrence) : option string :=
  if bool_decide (timestamp occ = "") then None else Some (timestamp occ).

(** The update of [summary] that goes with one occurrence. *)
Definition ingest_occ (d : Summary) (occ : Occurrence) : Summary :=
  ingest d (error_name occ) (file occ) (occurrence_ts occ) (message occ).

Definition aggregate (occs : list Occurrence) : Summary := foldl ingest_occ [] occs.

(** The occurrences of one error name, in order. *)
Definition occs_of (name : string) (occs : list Occurrence) : list Occurrence :=
  filter (λ o, error_name o = name) occs.

(** What the entry of an error name has to do with the occurrences [L] of
    that name: its name, count, sample message and set of files. *)
Definition entry_basics (name : string) (L : list Occurrence) (e : SummaryEntry) : Prop :=
  s_error_name e = name
  ∧ count e = length L
  ∧ Some (sample_message e) = message <$> head L
  ∧ NoDup (files e)
  ∧ ∀ f, f ∈ files e ↔ f ∈ file <$> L.

(** ... and its bounds: each is the timestamp of one of the occurrences;
    they are empty only while no occurrence had a timestamp; and when both
    are read as instants they enclose every timestamp that is. *)
Definition entry_bounds (L : list Occurrence) (e : SummaryEntry) : Prop :=
  first_seen e ∈ timestamp <$> L
  ∧ last_seen e ∈ timestamp <$> L
  ∧ bounded e
  ∧ (first_seen e = "" → ∀ o, o ∈ L → timestamp o = "")
  ∧ ∀ f l, parse_instant (first_seen e) = Some f →
           parse_instant (last_seen e) = Some l →
           ∀ o c, o ∈ L → parse_instant (timestamp o) = Some c →
                  dt_le f c = true ∧ dt_le c l = true.

(** The state of the entry of [name] after the occurrences [occs]. *)
Definition entry_agrees (name : string) (occs : list Occurrence) (d : Summary) : Prop :=
  match dict_get d name with
  | None => occs_of name occs = []
  | Some e =>
      occs_of name occs ≠ []
      ∧ entry_basics name (occs_of name occs) e
      ∧ entry_bounds (occs_of name occs) e
  end.

(** The two bounds after [update_bounds], from the two bounds before it. *)
Definition bounds_after (f l ts : string) : string * string :=
  let f := if bool_decide (f = "") then ts else f in
  let l := if bool_decide (l = "") then ts else l in
  match parse_instant f, parse_instant l, parse_instant ts with
  | Some fdt, Some ldt, Some cdt =>
      (if dt_lt cdt fdt then ts else f, if dt_lt ldt cdt then ts else l)
  | _, _, _ => (f, l)
  end.

(** The run over the two files of the example, and two of its entries. *)
Definition example_run : scan_state :=
  analyze_files example_fs [["logs"; "a.txt"]; ["logs"; "b.txt"]].

Definition example_network_entry : SummaryEntry :=
  MkSummaryEntry "NetworkError" 2 "2025-04-08T09:30:00" "2025-04-10T12:00:00"
    ["logs/a.txt"] "2025-04-10 12:00:00 nsUtils failed err: 5".

Definition example_proxy_entry : SummaryEntry :=
  MkSummaryEntry "Proxy403" 2 "31/02/2025" "31/02/2025"
    ["logs/b.txt"] "HTTP response code: 403".

(** ** Occurrences, line by line *)

(** The name of the first pattern of the registry that is found in the
    line. *)
Fixpoint first_match (pats : list (string * regex)) (ln : string) : option string :=
  match pats with
  | [] => None
  | (name, cregex) :: rest =>
      if re_search true cregex ln is Some _ then Some name else first_match rest ln
  end.

(** The occurrence that a line gives under an error name. *)
Definition occurrence_at (name : string) (fpath : Path) (lineno : nat)
    (ln : string) : Occurrence :=
  MkOccurrence name (path_str fpath) lineno (or_empty (extract_timestamp ln))
    (or_empty (extract_uuid ln)) (or_empty (extract_session_id ln)) (strip ln).

Definition line_occurrence (pats : list (string * regex)) (fpath : Path)
    (lineno : nat) (ln : string) : option Occurrence :=
  (λ name, occurrence_at name fpath lineno ln) <$> first_match pats ln.

(** The occurrences of one file scanned alone: one for each line read in
    which a pattern is found, numbered from 1. *)
Definition file_occurrences (pats : list (string * regex)) (fs : filesystem)
    (fpath : Path) : list Occurrence :=
  omap id (imap (λ i ln, line_occurrence pats fpath (S i) ln) (open_lines fs fpath).1).

(** ** Input paths *)

(** What the loop of [iter_input_files] makes of one input: the files of a
    directory, the file itself, nothing (a warning), or an exception
    ([None]). *)
Definition input_files (fs : filesystem) (inp : string) : option (list Path) :=
  let p := Path_of inp in
  match is_dir fs p with
  | None => None
  | Some true => rglob_txt fs p
  | Some false =>
      match is_file fs p with
      | None => None
      | Some true => Some [p]
      | Some false => Some []
      end
  end.

(** The input names neither a directory nor a file. *)
Definition absent (fs : filesystem) (inp : string) : bool :=
  bool_decide (is_dir fs (Path_of inp) = Some false)
  && bool_decide (is_file fs (Path_of inp) = Some false).

(** Examining the input raises. *)
Definition raises (fs : filesystem) (inp : string) : bool :=
  bool_decide (input_files fs inp = None).

(** * Properties *)

(** ** The patterns compile *)

Lemma compiled_ok : compile_all ERROR_PATTERNS = Some compiled.
Proof. vm_compute. reflexivity. Qed.

Lemma ts_compiled_ok : mapM re_compile TS_PATTERNS = Some ts_compiled.
Proof. vm_compute. reflexivity. Qed.

Lemma aux_compiled_ok :
  re_compile UUID_REGEX = Some uuid_compiled
  ∧ re_compile SESSION_ID_REGEX = Some session_id_compiled
  ∧ re_compile DMY_REGEX = Some dmy_compiled
  ∧ re_compile STRPTIME_DMY_REGEX = Some strptime_dmy_compiled.
Proof. repeat split; vm_compute; reflexivity. Qed.

(** ** The pattern loop *)

Lemma scan_line_hit pats name cregex post fpath lineno ln st :
  Forall (λ p, re_search true p.2 ln = None) pats →
  is_Some (re_search true cregex ln) →
  scan_line (pats ++ (name, cregex) :: post) fpath lineno ln st
  = on_match name fpath lineno ln st.
Proof.
  intros Hpre [m Hm]. induction Hpre as [|[n r] pre Hr _ IH]; simpl.
  - by rewrite Hm.
  - simpl in Hr. by rewrite Hr.
Qed.

Lemma scan_line_miss pats fpath lineno ln st :
  Forall (λ p, re_search true p.2 ln = None) pats →
  scan_line pats fpath lineno ln st = st.
Proof.
  induction 1 as [|[n r] pre Hr _ IH]; simpl; [done|].
  simpl in Hr. by rewrite Hr.
Qed.

(** A line either leaves the state alone or runs the body once. *)
Lemma scan_line_cases pats fpath lineno ln st :
  scan_line pats fpath lineno ln st = st
  ∨ ∃ name, name ∈ pats.*1
      ∧ scan_line pats fpath lineno ln st = on_match name fpath lineno ln st.
Proof.
  induction pats as [|[n r] pats IH]; simpl; [by left|].
  destruct (re_search true r ln).
  - right. exists n. split; [left|done].
  - destruct IH as [IH|(name & Hin & IH)]; [by left|].
    right. exists name. split; [by right|done].
Qed.

(** C1: a line that matches several signatures is owned by the one
    registered first.  When the signature at position [i] of the registry
    matches the line and none before it does, the loop runs the body once
    with that signature's name: exactly one occurrence is appended and its
    [error_name] is that name.  The signatures after position [i] are not
    consulted (the result is that of the registry cut after [i]), and in
    every case a line adds at most one occurrence. *)
Theorem first_registered_signature_wins
    (pats : list (string * regex)) (i : nat) (name : string) (cregex : regex)
    (fpath : Path) (lineno : nat) (ln : string) (st : scan_state) :
  pats !! i = Some (name, cregex) →
  is_Some (re_search true cregex ln) →
  Forall (λ p, re_search true p.2 ln = None) (take i pats) →
  (∃ occ, occurrences (scan_line pats fpath lineno ln st) = occurrences st ++ [occ]
          ∧ error_name occ = name)
  ∧ scan_line pats fpath lineno ln st
    = scan_line (take (S i) pats) fpath lineno ln st
  ∧ ∀ pats', length (occurrences (scan_line pats' fpath lineno ln st))
             ≤ S (length (occurrences st)).
Proof.
  intros Hi Hm Hpre.
  assert (Hsplit : pats = take i pats ++ (name, cregex) :: drop (S i) pats).
  { by rewrite <- (take_drop_middle pats i (name, cregex)) at 1. }
  assert (Hcut : take (S i) pats = take i pats ++ (name, cregex) :: []).
  { by apply take_S_r. }
  split; [|split].
  - rewrite Hsplit, scan_line_hit by done. simpl. eauto.
  - rewrite Hcut. rewrite Hsplit at 1. by rewrite !scan_line_hit.
  - intros pats'.
    destruct (scan_line_cases pats' fpath lineno ln st) as [->|(n & _ & ->)].
    + lia.
    + simpl. rewrite length_app. simpl. lia.
Qed.

(** ** Counting *)

Lemma sum_counts_cons k v d : sum_counts ((k, v) :: d) = count v + sum_counts d.
Proof. done. Qed.

Lemma dict_set_sum_new d k v :
  dict_get d k = None → sum_counts (dict_set d k v) = sum_counts d + count v.
Proof.
  induction d as [|[k' v'] d IH]; simpl; intros H.
  - rewrite sum_counts_cons. unfold sum_counts. simpl. lia.
  - case_bool_decide; [done|]. rewrite !sum_counts_cons, IH by done. lia.
Qed.

Lemma dict_set_sum_old d k v v0 :
  dict_get d k = Some v0 →
  sum_counts (dict_set d k v) + count v0 = sum_counts d + count v.
Proof.
  induction d as [|[k' v'] d IH]; simpl; intros H; [done|].
  case_bool_decide; simplify_eq; rewrite !sum_counts_cons; [lia|].
  specialize (IH H). lia.
Qed.

Lemma dict_set_Forall (P : string * SummaryEntry → Prop) d k v :
  (∀ k', P (k', v)) → Forall P d → Forall P (dict_set d k v).
Proof.
  intros Hv. induction 1 as [|[k' v'] d Hx Hd IH]; simpl.
  - by repeat constructor.
  - case_bool_decide; constructor; auto.
Qed.

Lemma update_bounds_count e ts : count (update_bounds e ts) = count e.
Proof.
  unfold update_bounds.
  repeat (case_bool_decide || case_match || simpl); done.
Qed.

Lemma ingest_unfold d name fpath ts msg :
  ingest d name fpath ts msg = dict_set d name (ingested d name fpath ts msg).
Proof. unfold ingest, ingested. by destruct (dict_get d name). Qed.

Lemma ingested_count d name fpath ts msg :
  count (ingested d name fpath ts msg)
  = S (from_option count 0 (dict_get d name)).
Proof.
  unfold ingested. destruct (truthy ts); rewrite ?update_bounds_count;
    destruct (dict_get d name); simpl; lia.
Qed.

Lemma ingest_sum d name fpath ts msg :
  sum_counts (ingest d name fpath ts msg) = S (sum_counts d).
Proof.
  rewrite ingest_unfold.
  destruct (dict_get d name) as [e0|] eqn:Hget.
  - pose proof (dict_set_sum_old d name (ingested d name fpath ts msg) e0 Hget) as H.
    rewrite ingested_count, Hget in H. simpl in H. lia.
  - rewrite dict_set_sum_new, ingested_count, Hget by done. simpl. lia.
Qed.

Lemma ingest_positive d name fpath ts msg :
  Forall (λ kv, 1 ≤ count kv.2) d →
  Forall (λ kv, 1 ≤ count kv.2) (ingest d name fpath ts msg).
Proof.
  intros H. rewrite ingest_unfold. apply dict_set_Forall; [|done].
  intros k'. simpl. rewrite ingested_count. lia.
Qed.

Lemma on_match_counted name fpath lineno ln st :
  counted st → counted (on_match name fpath lineno ln st).
Proof.
  intros [Hs Hp]. split; simpl.
  - rewrite ingest_sum, length_app, Hs. simpl. lia.
  - by apply ingest_positive.
Qed.

Lemma scan_line_counted pats fpath lineno ln st :
  counted st → counted (scan_line pats fpath lineno ln st).
Proof.
  intros H. destruct (scan_line_cases pats fpath lineno ln st) as [->|(n & _ & ->)];
    auto using on_match_counted.
Qed.

Lemma scan_lines_counted pats fpath lns : ∀ lineno st,
  counted st → counted (scan_lines pats fpath lineno lns st).
Proof.
  induction lns as [|ln lns IH]; simpl; intros; [done|].
  apply IH. by apply scan_line_counted.
Qed.

Lemma scan_file_counted pats fs st fpath :
  counted st → counted (scan_file pats fs st fpath).
Proof.
  intros H. unfold scan_file. destruct (open_lines fs fpath) as [lns err].
  pose proof (scan_lines_counted pats fpath lns 1 st H) as H'.
  by destruct err.
Qed.

Lemma foldl_scan_file_counted pats fs fls : ∀ st,
  counted st → counted (foldl (scan_file pats fs) st fls).
Proof.
  induction fls as [|f fls IH]; simpl; intros; [done|].
  apply IH. by apply scan_file_counted.
Qed.

Lemma finalize_counts d : count ∘ snd <$> finalize d = count ∘ snd <$> d.
Proof. unfold finalize. induction d as [|[k v] d IH]; simpl; by f_equal. Qed.

Lemma analyze_files_with_counted pats fs fls :
  counted (analyze_files_with pats fs fls).
Proof.
  unfold analyze_files_with.
  destruct (foldl_scan_file_counted pats fs fls init_state) as [Hs Hp].
  { split; [done|constructor]. }
  split; simpl.
  - unfold sum_counts. by rewrite finalize_counts.
  - unfold finalize. rewrite Forall_fmap. by eapply Forall_impl.
Qed.

(** C2: when [analyze_files] returns, whatever the files hold and wherever
    reading them fails, the counts of the summary entries add up to the
    number of occurrences, and every entry of the summary has a count of at
    least one. *)
Theorem counts_sum_to_occurrences (fs : filesystem) (fls : list Path) :
  sum_counts (summary (analyze_files fs fls))
  = length (occurrences (analyze_files fs fls))
  ∧ Forall (λ kv, 1 ≤ count kv.2) (summary (analyze_files fs fls)).
Proof. apply analyze_files_with_counted. Qed.

(** ** The example line *)

(** C7: on the line [2025-04-10 12:00:00 nsUtils failed err: 5], whatever
    the file, the line number and the state before it, the scan appends
    exactly one occurrence; its [error_name] is [NetworkError] and its
    timestamp is [2025-04-10T12:00:00], the space of the line replaced by
    [T].  The same holds when the line still carries its newline, and a
    file that holds just this line gives just this occurrence. *)
Theorem example_line_network_error (fpath : Path) (lineno : nat) (st : scan_state) :
  let ln := "2025-04-10 12:00:00 nsUtils failed err: 5" in
  let occ := MkOccurrence "NetworkError" (path_str fpath) lineno
               "2025-04-10T12:00:00" "" "" ln in
  occurrences (scan_line compiled fpath lineno ln st) = occurrences st ++ [occ]
  ∧ occurrences (scan_line compiled fpath lineno (ln +:+ String NL "") st)
    = occurrences st ++ [occ]
  ∧ occurrences (scan_line compiled fpath lineno ln init_state) = [occ]
  ∧ (λ fls, occurrences (analyze_files example_line_fs fls))
      <$> iter_input_files example_line_fs ["app.txt"]
    = Some [MkOccurrence "NetworkError" "app.txt" 1 "2025-04-10T12:00:00" "" "" ln].
Proof.
  intros ln occ.
  assert (Hhit : ∀ l st', l = ln ∨ l = ln +:+ String NL "" →
            scan_line compiled fpath lineno l st'
            = on_match "NetworkError" fpath lineno l st').
  { intros l st' Hl.
    apply (scan_line_hit [] "NetworkError" _ _ fpath lineno l st'); [constructor|].
    destruct Hl as [-> | ->]; vm_compute; eauto. }
  rewrite !Hhit by auto. repeat split; reflexivity.
Qed.

Lemma first_registered_signature_wins_witness :
  ∃ occ, occurrences (scan_line compiled ["logs"; "a.txt"] 2
                        "2025-04-09 08:00:00 tunnel not found, forbidden" init_state)
         = [occ]
         ∧ error_name occ = "TunnelError".
Proof.
  refine (proj1 (first_registered_signature_wins compiled 1 "TunnelError" _
                   ["logs"; "a.txt"] 2
                   "2025-04-09 08:00:00 tunnel not found, forbidden" init_state
                   eq_refl _ _)).
  - vm_compute. eauto.
  - apply Forall_cons; split; [vm_compute; reflexivity | apply Forall_nil; exact I].
Defined.

(** ** First and last seen *)

Lemma lex_lt_irrefl a : lex_lt a a = false.
Proof.
  induction a as [|x a IH]; simpl; [done|].
  rewrite IH, Nat.ltb_irrefl. by rewrite andb_false_r.
Qed.

Lemma lex_lt_trans a : ∀ b c,
  lex_lt a b = true → lex_lt b c = true → lex_lt a c = true.
Proof.
  induction a as [|x a IH]; intros [|y b] [|z c]; simpl; try done.
  rewrite !orb_true_iff, !andb_true_iff, !Nat.ltb_lt, !Nat.eqb_eq.
  intros [?|[-> ?]] [?|[-> ?]]; eauto with lia.
Qed.

Lemma dt_le_refl a : dt_le a a = true.
Proof. unfold dt_le, dt_lt. by rewrite lex_lt_irrefl. Qed.

(** Moving a bound to a new instant keeps the bounds in order. *)
Lemma dt_le_lower c f l :
  dt_le f l = true → dt_lt c f = true → dt_le c l = true.
Proof.
  unfold dt_le, dt_lt. rewrite !negb_true_iff. intros Hfl Hcf.
  destruct (lex_lt (dt_key l) (dt_key c)) eqn:Hlc; [|done].
  by rewrite (lex_lt_trans _ _ _ Hlc Hcf) in Hfl.
Qed.

Lemma dt_le_raise c f l :
  dt_le f l = true → dt_lt l c = true → dt_le f c = true.
Proof.
  unfold dt_le, dt_lt. rewrite !negb_true_iff. intros Hfl Hlc.
  destruct (lex_lt (dt_key c) (dt_key f)) eqn:Hcf; [|done].
  by rewrite (lex_lt_trans _ _ _ Hlc Hcf) in Hfl.
Qed.

Lemma parse_instant_empty : parse_instant "" = None.
Proof. done. Qed.

Lemma bounded_parsed e f l :
  bounded e →
  parse_instant (first_seen e) = Some f →
  parse_instant (last_seen e) = Some l →
  dt_le f l = true.
Proof.
  intros [Heq|(f' & l' & Hf & Hl & Hle)] Hf' Hl'.
  - rewrite Heq, Hl' in Hf'. simplify_eq. apply dt_le_refl.
  - by simplify_eq.
Qed.

Lemma update_bounds_bounded e ts : bounded e → bounded (update_bounds e ts).
Proof.
  intros Hb. unfold update_bounds.
  set (e1 := if bool_decide (first_seen e = "") then with_first_seen e ts else e).
  set (e2 := if bool_decide (last_seen e1 = "") then with_last_seen e1 ts else e1).
  assert (Hb2 : bounded e2).
  { subst e2 e1. destruct Hb as [Heq|(f & l & Hf & Hl & Hle)].
    - left. rewrite Heq. by repeat (case_bool_decide; simpl in * ).
    - assert (first_seen e ≠ "") by (intros E; by rewrite E, parse_instant_empty in Hf).
      assert (last_seen e ≠ "") by (intros E; by rewrite E, parse_instant_empty in Hl).
      rewrite (bool_decide_eq_false_2 (first_seen e = "")) by done.
      rewrite (bool_decide_eq_false_2 (last_seen e = "")) by done.
      right. eauto. }
  clearbody e2. clear e1 Hb.
  fold (parse_instant (first_seen e2)) (parse_instant (last_seen e2)) (parse_instant ts).
  destruct (parse_instant (first_seen e2)) as [fdt|] eqn:Hf; [|done].
  destruct (parse_instant (last_seen e2)) as [ldt|] eqn:Hl; [|done].
  destruct (parse_instant ts) as [cdt|] eqn:Hc; [|done].
  pose proof (bounded_parsed _ _ _ Hb2 Hf Hl) as Hle.
  right. destruct (dt_lt cdt fdt) eqn:Hcf, (dt_lt ldt cdt) eqn:Hlc; simpl.
  - exists cdt, cdt. eauto using dt_le_refl.
  - exists cdt, ldt. eauto using dt_le_lower.
  - exists fdt, cdt. eauto using dt_le_raise.
  - exists fdt, ldt. eauto.
Qed.

Lemma dict_get_elem_of d k v : dict_get d k = Some v → ∃ k', (k', v) ∈ d.
Proof.
  induction d as [|[k' v'] d IH]; simpl; [done|].
  case_bool_decide; intros Hget; simplify_eq.
  - exists k. left.
  - destruct (IH Hget) as [k'' ?]. exists k''. by right.
Qed.

Lemma ingested_bounded d name fpath ts msg :
  Forall (λ kv, bounded kv.2) d → bounded (ingested d name fpath ts msg).
Proof.
  intros Hd. unfold ingested.
  set (e0 := default _ (dict_get d name)).
  assert (bounded e0) as Hb0.
  { subst e0. destruct (dict_get d name) as [e|] eqn:Hget; simpl; [|by left].
    destruct (dict_get_elem_of _ _ _ Hget) as [k' Hin].
    by apply (proj1 (Forall_forall _ _) Hd (k', e)). }
  destruct (truthy ts); [apply update_bounds_bounded|]; exact Hb0.
Qed.

Lemma scan_line_bounded pats fpath lineno ln st :
  Forall (λ kv, bounded kv.2) (summary st) →
  Forall (λ kv, bounded kv.2) (summary (scan_line pats fpath lineno ln st)).
Proof.
  intros H. destruct (scan_line_cases pats fpath lineno ln st) as [->|(n & _ & ->)];
    [done|]. simpl. rewrite ingest_unfold.
  apply dict_set_Forall; [|done]. intros k'. by apply ingested_bounded.
Qed.

Lemma scan_lines_bounded pats fpath lns : ∀ lineno st,
  Forall (λ kv, bounded kv.2) (summary st) →
  Forall (λ kv, bounded kv.2) (summary (scan_lines pats fpath lineno lns st)).
Proof.
  induction lns as [|ln lns IH]; simpl; intros; [done|].
  apply IH. by apply scan_line_bounded.
Qed.

Lemma foldl_scan_file_bounded pats fs fls : ∀ st,
  Forall (λ kv, bounded kv.2) (summary st) →
  Forall (λ kv, bounded kv.2) (summary (foldl (scan_file pats fs) st fls)).
Proof.
  induction fls as [|f fls IH]; simpl; intros st H; [done|].
  apply IH. unfold scan_file. destruct (open_lines fs f) as [lns err].
  pose proof (scan_lines_bounded pats f lns 1 st H). by destruct err.
Qed.

Lemma analyze_files_with_bounded pats fs fls :
  Forall (λ kv, bounded kv.2) (summary (analyze_files_with pats fs fls)).
Proof.
  unfold analyze_files_with. simpl. unfold finalize. rewrite Forall_fmap.
  eapply Forall_impl; [apply foldl_scan_file_bounded; constructor|].
  by intros [k v].
Qed.

(** A string that [fromisoformat] reads as it stands is read the same
    after the replacement the program makes first. *)
Lemma replace_space_T_length s : String.length (replace_space_T s) = String.length s.
Proof. induction s; simpl; by f_equal. Qed.

Lemma substring_replace s : ∀ i w,
  String.substring i w (replace_space_T s) = replace_space_T (String.substring i w s).
Proof.
  induction s as [|a s IH]; intros [|i] [|w]; simpl; rewrite ?IH; done.
Qed.

Lemma get_replace s : ∀ i c,
  String.get i s = Some c → c ≠ " "%char → String.get i (replace_space_T s) = Some c.
Proof.
  induction s as [|a s IH]; intros [|i] c; simpl; try done.
  - intros [= ->] Hc. by rewrite bool_decide_eq_false_2.
  - apply IH.
Qed.

Lemma all_digits_replace f : all_digits f = true → replace_space_T f = f.
Proof.
  unfold all_digits. induction f as [|a f IH]; simpl; [done|].
  rewrite andb_true_iff. intros [Ha Hf]. rewrite IH by done.
  rewrite bool_decide_eq_false_2; [done|]. by intros ->.
Qed.

Lemma field_replace s i w sep v :
  (∀ c, sep = Some c → c ≠ " "%char) →
  field s i w sep = Some v → field (replace_space_T s) i w sep = Some v.
Proof.
  intros Hsep. unfold field. rewrite substring_replace.
  destruct (String.length (String.substring i w s) =? w) eqn:Hlen; [|done].
  destruct (all_digits (String.substring i w s)) eqn:Hd; [|done].
  rewrite (all_digits_replace _ Hd), Hlen, Hd. simpl.
  destruct sep as [c|]; [|done].
  case_bool_decide as Hget; [|done].
  by rewrite (get_replace _ _ _ Hget (Hsep c eq_refl)), bool_decide_eq_true_2.
Qed.

Lemma fromisoformat_replace s dt :
  fromisoformat s = Some dt → parse_instant s = Some dt.
Proof.
  unfold parse_instant, fromisoformat. rewrite replace_space_T_length.
  destruct (String.length s =? 19); [|done].
  intros H.
  repeat match type of H with
  | (mbind _ (field s ?i ?w ?sep)) = _ =>
      let v := fresh "v" in let E := fresh "E" in
      destruct (field s i w sep) as [v|] eqn:E; [|done];
      rewrite (field_replace s i w sep v) by (done || (intros ? [= <-]; done));
      simpl in H |- *
  end.
  done.
Qed.

(** C3: in the summary that [analyze_files] returns, whatever the files
    hold (lines without a timestamp and lines whose timestamp is not a date
    included), an entry whose [first_seen] and [last_seen] are both read as
    instants has the first not after the last; the instants are compared
    field by field, not as strings.  The strings are read as the program
    reads them (the second part: also as [fromisoformat] reads them as
    they stand). *)
Theorem first_seen_not_after_last_seen
    (fs : filesystem) (fls : list Path) (i : nat) (name : string)
    (e : SummaryEntry) :
  summary (analyze_files fs fls) !! i = Some (name, e) →
  (∀ f l, parse_instant (first_seen e) = Some f →
          parse_instant (last_seen e) = Some l →
          dt_le f l = true)
  ∧ (∀ f l, fromisoformat (first_seen e) = Some f →
            fromisoformat (last_seen e) = Some l →
            dt_le f l = true).
Proof.
  intros Hi.
  assert (Hb : bounded e).
  { apply (proj1 (Forall_forall _ _) (analyze_files_with_bounded compiled fs fls) (name, e)).
    by eapply list_elem_of_lookup_2. }
  split; intros f l Hf Hl.
  - by apply (bounded_parsed e).
  - apply (bounded_parsed e); auto using fromisoformat_replace.
Qed.

Lemma first_seen_not_after_last_seen_witness :
  dt_le (DateTime 2025 4 8 9 30 0) (DateTime 2025 4 10 12 0 0) = true.
Proof.
  refine (proj1 (first_seen_not_after_last_seen example_fs [["logs"; "a.txt"]] 0
                   "NetworkError"
                   (MkSummaryEntry "NetworkError" 2 "2025-04-08T09:30:00"
                      "2025-04-10T12:00:00" ["logs/a.txt"]
                      "2025-04-10 12:00:00 nsUtils failed err: 5")
                   _) _ _ _ _); vm_compute; reflexivity.
Defined.

(** ** Reading that fails partway *)

Lemma dict_get_set d k v k' :
  dict_get (dict_set d k v) k' = if bool_decide (k = k') then Some v else dict_get d k'.
Proof.
  induction d as [|[k0 v0] d IH]; simpl.
  - by repeat case_bool_decide.
  - repeat (case_bool_decide; simpl; simplify_eq); try done; rewrite IH;
      by repeat (case_bool_decide; simplify_eq).
Qed.

Lemma dict_get_finalize d k :
  dict_get (finalize d) k
  = (λ e, with_files e (sorted string_leb (files e))) <$> dict_get d k.
Proof.
  unfold finalize. induction d as [|[k0 v0] d IH]; simpl; [done|].
  by case_bool_decide.
Qed.

Lemma retained_refl st : retained st st.
Proof. split; [done|]. eauto. Qed.

Lemma retained_trans st1 st2 st3 :
  retained st1 st2 → retained st2 st3 → retained st1 st3.
Proof.
  intros [Hp1 Hc1] [Hp2 Hc2]. split; [by etrans|].
  intros name e He. destruct (Hc1 _ _ He) as (e' & He' & ?).
  destruct (Hc2 _ _ He') as (e'' & He'' & ?). exists e''. split; [done|lia].
Qed.

Lemma on_match_retained name fpath lineno ln st :
  retained st (on_match name fpath lineno ln st).
Proof.
  split; simpl; [by apply prefix_app_r|].
  intros name' e He. rewrite ingest_unfold, dict_get_set.
  case_bool_decide as Hk; [|eauto]. subst name'.
  eexists. split; [done|]. rewrite ingested_count, He. simpl. lia.
Qed.

Lemma scan_line_retained pats fpath lineno ln st :
  retained st (scan_line pats fpath lineno ln st).
Proof.
  destruct (scan_line_cases pats fpath lineno ln st) as [->|(n & _ & ->)];
    auto using retained_refl, on_match_retained.
Qed.

Lemma scan_lines_retained pats fpath lns : ∀ lineno st,
  retained st (scan_lines pats fpath lineno lns st).
Proof.
  induction lns as [|ln lns IH]; simpl; intros; [apply retained_refl|].
  eapply retained_trans; [apply scan_line_retained|apply IH].
Qed.

Lemma scan_file_retained pats fs st fpath :
  retained st (scan_file pats fs st fpath).
Proof.
  unfold scan_file. destruct (open_lines fs fpath) as [lns err].
  pose proof (scan_lines_retained pats fpath lns 1 st) as H.
  by destruct err.
Qed.

Lemma foldl_scan_file_retained pats fs fls : ∀ st,
  retained st (foldl (scan_file pats fs) st fls).
Proof.
  induction fls as [|f fls IH]; simpl; intros; [apply retained_refl|].
  eapply retained_trans; [apply scan_file_retained|apply IH].
Qed.

Lemma node_at_Some fs p n : node_at fs p = Some n ↔ stat fs p = Ok n.
Proof.
  unfold node_at. destruct (stat fs p); split; intros H; by simplify_eq.
Qed.

(** What [scan_file] does with a file whose reading fails after [n] lines. *)
Lemma scan_file_fault pats fs st fpath i d n msg :
  node_at fs fpath = Some (NFile i) →
  store fs !! i = Some d →
  fault d = Some (n, msg) →
  scan_file pats fs st fpath
  = let st' := scan_lines pats fpath 1 (take n (readlines (content d) "")) st in
    ScanState (occurrences st') (summary st') (errlog st' ++ [read_error fpath msg]).
Proof.
  intros Hn%node_at_Some Hs Hf. unfold scan_file, open_lines. by rewrite Hn, Hs, Hf.
Qed.

(** C9: a file whose reading fails after [n] lines is not dropped as a
    whole.  The state after it is the state after scanning the [n] lines
    that were read, with the failure reported; the lines after them are not
    scanned; the files that follow are processed from that state; and in
    what [analyze_files] returns the occurrences found in those [n] lines
    are kept (those recorded up to there begin the final list) and every
    summary entry they updated is kept with a count that is not smaller. *)
Theorem partial_read_is_retained
    (fs : filesystem) (pre post : list Path) (fpath : Path) (i : nat)
    (d : file_data) (n : nat) (msg : string) :
  node_at fs fpath = Some (NFile i) →
  store fs !! i = Some d →
  fault d = Some (n, msg) →
  let before := foldl (scan_file compiled fs) init_state pre in
  let part := scan_lines compiled fpath 1 (take n (readlines (content d) "")) before in
  let after := ScanState (occurrences part) (summary part)
                 (errlog part ++ [read_error fpath msg]) in
  let final := foldl (scan_file compiled fs) after post in
  foldl (scan_file compiled fs) init_state (pre ++ [fpath]) = after
  ∧ analyze_files fs (pre ++ fpath :: post)
    = ScanState (occurrences final) (finalize (summary final)) (errlog final)
  ∧ retained part (analyze_files fs (pre ++ fpath :: post)).
Proof.
  intros Hn Hs Hf before part after final.
  assert (Hafter : scan_file compiled fs before fpath = after).
  { by rewrite (scan_file_fault _ _ _ _ _ _ _ _ Hn Hs Hf). }
  assert (Hfinal : foldl (scan_file compiled fs) init_state (pre ++ fpath :: post) = final).
  { rewrite foldl_app. simpl. fold before. by rewrite Hafter. }
  split; [|split].
  - rewrite foldl_app. simpl. by fold before.
  - unfold analyze_files, analyze_files_with. fold init_state. by rewrite Hfinal.
  - unfold analyze_files, analyze_files_with. fold init_state. rewrite Hfinal.
    assert (Hret : retained part final).
    { eapply retained_trans; [|apply foldl_scan_file_retained]. split; [done|eauto]. }
    destruct Hret as [Hp Hc]. split; [done|]. simpl.
    intros name e He. destruct (Hc _ _ He) as (e' & He' & ?).
    rewrite dict_get_finalize, He'. simpl. eauto.
Qed.

Lemma partial_read_is_retained_witness :
  retained
    (scan_lines compiled ["logs"; "b.txt"] 1
       ["HTTP response code: 403" +:+ nl; "[31/02/2025 | x] forbidden" +:+ nl]
       (foldl (scan_file compiled example_fs) init_state [["logs"; "a.txt"]]))
    (analyze_files example_fs
       [["logs"; "a.txt"]; ["logs"; "b.txt"]; ["logs"; ".."; "logs"; "a.txt"]]).
Proof.
  refine (proj2 (proj2 (partial_read_is_retained example_fs [["logs"; "a.txt"]]
                          [["logs"; ".."; "logs"; "a.txt"]] ["logs"; "b.txt"] 2
                          (FileData
                             ("HTTP response code: 403" +:+ nl
                              +:+ "[31/02/2025 | x] forbidden" +:+ nl
                              +:+ "tunnel not found" +:+ nl)
                             (Some (2, "[Errno 5] Input/output error")))
                          2 "[Errno 5] Input/output error" _ _ _)));
    vm_compute; reflexivity.
Defined.

(** ** The output directory and the fatal exit *)

Lemma entry_None fs loc : entry fs loc = None → nodes fs !! loc = None.
Proof. by destruct loc. Qed.

Lemma entry_file fs loc i :
  entry fs loc = Some (NFile i) → nodes fs !! loc = Some (NFile i).
Proof. by destruct loc. Qed.

Lemma only_new_dirs_refl fs : only_new_dirs fs fs.
Proof. repeat split; try done. intros loc. by left. Qed.

Lemma only_new_dirs_trans fs1 fs2 fs3 :
  only_new_dirs fs1 fs2 → only_new_dirs fs2 fs3 → only_new_dirs fs1 fs3.
Proof.
  intros (Hc1 & Hd1 & Hs1 & Hn1) (Hc2 & Hd2 & Hs2 & Hn2).
  repeat split; try congruence.
  intros p. destruct (Hn1 p) as [H1|[H1 H1']], (Hn2 p) as [H2|[H2 H2']];
    try (left; congruence); try (right; split; congruence).
Qed.

Lemma only_new_dirs_entry fs fs' loc n :
  only_new_dirs fs fs' → entry fs loc = Some n → entry fs' loc = Some n.
Proof.
  intros (_ & _ & _ & H). destruct loc as [|x loc]; [done|]. simpl.
  destruct (H (x :: loc)) as [->|[E _]]; [done|]. by rewrite E.
Qed.

(** A file that is there after directories were added was there before. *)
Lemma only_new_dirs_file fs fs' loc i :
  only_new_dirs fs fs' →
  nodes fs' !! loc = Some (NFile i) ↔ nodes fs !! loc = Some (NFile i).
Proof.
  intros (_ & _ & _ & H). destruct (H loc) as [->|[E E']]; [done|].
  rewrite E, E'. done.
Qed.

Lemma enter_mono fs fs' loc x l :
  only_new_dirs fs fs' → enter fs loc x = Ok l → enter fs' loc x = Ok l.
Proof.
  intros H. unfold enter. destruct (entry fs loc) as [[|i]|] eqn:E; try done.
  rewrite (only_new_dirs_entry _ _ _ _ H E). by destruct H as (_ & -> & _).
Qed.

Lemma walk_mono fs fs' names : ∀ loc l,
  only_new_dirs fs fs' → walk fs loc names = Ok l → walk fs' loc names = Ok l.
Proof.
  induction names as [|x names IH]; simpl; intros loc l H; [done|].
  destruct (enter fs loc x) as [loc'|e] eqn:E; [|done].
  rewrite (enter_mono _ _ _ _ _ H E). by apply IH.
Qed.

Lemma locate_mono fs fs' p loc :
  only_new_dirs fs fs' → locate fs p = Ok loc → locate fs' p = Ok loc.
Proof.
  intros H. unfold locate. destruct (has_nul p); [done|].
  destruct (PATH_MAX <=? _); [done|].
  replace (start_of fs' p) with (start_of fs p).
  - by apply walk_mono.
  - unfold start_of. by destruct H as (-> & _).
Qed.

Lemma add_dir_only_new fs loc :
  entry fs loc = None → only_new_dirs fs (add_dir fs loc).
Proof.
  intros Hp. repeat split; try done. intros q. simpl.
  destruct (decide (loc = q)) as [->|Hne].
  - right. rewrite lookup_insert_eq. split; [by apply entry_None|done].
  - left. by rewrite lookup_insert_ne.
Qed.

Lemma os_mkdir_Ok fs p fs' :
  os_mkdir fs p = Ok fs' →
  ∃ loc, locate fs p = Ok loc ∧ entry fs loc = None ∧ fs' = add_dir fs loc.
Proof.
  unfold os_mkdir. destruct (locate fs p) as [loc|e]; simpl; [|done].
  destruct (last (names_of p)) as [x|]; [|done].
  destruct (bool_decide (x = "..")); [done|].
  destruct (entry fs loc) eqn:E; [done|]. intros [= <-]. eauto.
Qed.

Lemma os_mkdir_only_new fs p fs' : os_mkdir fs p = Ok fs' → only_new_dirs fs fs'.
Proof. intros (loc & _ & He & ->)%os_mkdir_Ok. by apply add_dir_only_new. Qed.

Lemma os_mkdir_is_dir fs p fs' : os_mkdir fs p = Ok fs' → is_dir fs' p = Some true.
Proof.
  intros (loc & Hl & He & ->)%os_mkdir_Ok. unfold is_dir, stat.
  rewrite (locate_mono _ _ _ _ (add_dir_only_new _ _ He) Hl). simpl.
  destruct loc as [|x loc]; [done|]. simpl. by rewrite lookup_insert_eq.
Qed.

Lemma mkdir_once_only_new fs p : only_new_dirs fs (mkdir_once fs p).1.
Proof.
  unfold mkdir_once. destruct (os_mkdir fs p) as [fs'|[]] eqn:E; simpl;
    first [apply only_new_dirs_refl | by apply os_mkdir_only_new in E].
Qed.

Lemma mkdir_once_ok fs p :
  (mkdir_once fs p).2 = true → is_dir (mkdir_once fs p).1 p = Some true.
Proof.
  unfold mkdir_once. destruct (os_mkdir fs p) as [fs'|[]] eqn:E; simpl;
    first [done | by apply os_mkdir_is_dir in E | by intros ?%bool_decide_eq_true].
Qed.

Lemma mkdir_chain_only_new chain : ∀ fs, only_new_dirs fs (mkdir_chain fs chain).1.
Proof.
  induction chain as [|p ups IH]; simpl; intros fs; [apply only_new_dirs_refl|].
  destruct (os_mkdir fs p) as [fs'|[]] eqn:E; simpl;
    try apply only_new_dirs_refl; [by apply os_mkdir_only_new in E|].
  specialize (IH fs). destruct (mkdir_chain fs ups) as [fs1 ok]. simpl in IH.
  destruct ok; [|done].
  eapply only_new_dirs_trans; [done|apply mkdir_once_only_new].
Qed.

Lemma mkdir_chain_ok ups : ∀ fs p,
  (mkdir_chain fs (p :: ups)).2 = true →
  is_dir (mkdir_chain fs (p :: ups)).1 p = Some true.
Proof.
  intros fs p. simpl.
  destruct (os_mkdir fs p) as [fs'|[]] eqn:E; simpl;
    try done; try (by intros ?%bool_decide_eq_true); [by apply os_mkdir_is_dir in E|].
  destruct (mkdir_chain fs ups) as [fs1 ok]. destruct ok; [|done].
  apply mkdir_once_ok.
Qed.

(** The locations that [mkdir_chain] fills are those of the paths of the
    chain. *)
Lemma mkdir_once_new fs p loc :
  nodes (mkdir_once fs p).1 !! loc ≠ nodes fs !! loc →
  locate (mkdir_once fs p).1 p = Ok loc.
Proof.
  unfold mkdir_once. destruct (os_mkdir fs p) as [fs'|[]] eqn:E; simpl; try done.
  pose proof (os_mkdir_only_new _ _ _ E) as Hnew.
  apply os_mkdir_Ok in E as (l & Hl & He & ->). simpl.
  intros Hne. rewrite (locate_mono _ _ _ _ Hnew Hl). f_equal.
  destruct (decide (l = loc)) as [->|Hll]; [done|].
  by rewrite lookup_insert_ne in Hne.
Qed.

Lemma mkdir_chain_new chain : ∀ fs loc,
  nodes (mkdir_chain fs chain).1 !! loc ≠ nodes fs !! loc →
  ∃ q, q ∈ chain ∧ locate (mkdir_chain fs chain).1 q = Ok loc.
Proof.
  induction chain as [|p ups IH]; simpl; intros fs loc; [done|].
  destruct (os_mkdir fs p) as [fs'|[]] eqn:E; simpl; try done.
  - intros Hne. exists p. split; [left|].
    pose proof (mkdir_once_new fs p loc) as H. unfold mkdir_once in H.
    rewrite E in H. by apply H.
  - specialize (IH fs loc). destruct (mkdir_chain fs ups) as [fs1 ok]. simpl in IH.
    destruct ok; simpl.
    + intros Hne.
      destruct (decide (nodes (mkdir_once fs1 p).1 !! loc = nodes fs1 !! loc)) as [Heq|Hne1].
      * rewrite Heq in Hne. destruct (IH Hne) as (q & Hq & Hl).
        exists q. split; [by right|].
        by apply (locate_mono _ _ _ _ (mkdir_once_only_new fs1 p)).
      * exists p. split; [left|]. by apply mkdir_once_new.
    + intros Hne. destruct (IH Hne) as (q & Hq & Hl). exists q. split; [by right|done].
Qed.

(** The lineage of a path begins with the path. *)
Lemma lineage_head p : ∃ ups, lineage p = p :: ups.
Proof.
  unfold lineage.
  set (lo := match p with x :: _ => if is_root x then 1 else 0 | [] => 0 end).
  assert (Hlo : lo ≤ length p).
  { subst lo. destruct p as [|x p]; simpl; [done|]. destruct (is_root x); lia. }
  replace (S (length p) - lo) with (S (length p - lo)) by lia.
  rewrite seq_S, reverse_snoc, fmap_cons.
  replace (lo + (length p - lo)) with (length p) by lia.
  rewrite firstn_all. eauto.
Qed.

Lemma elem_of_lineage p q :
  q ∈ lineage p ↔
  ∃ k, q = take k p ∧ k ≤ length p
       ∧ match p with x :: _ => if is_root x then 1 ≤ k else True | [] => True end.
Proof.
  unfold lineage.
  set (lo := match p with x :: _ => if is_root x then 1 else 0 | [] => 0 end).
  rewrite list_elem_of_fmap. setoid_rewrite elem_of_reverse.
  setoid_rewrite elem_of_seq.
  assert (Hlo : ∀ k, lo ≤ k ↔
            match p with x :: _ => if is_root x then 1 ≤ k else True | [] => True end).
  { intros k. subst lo. destruct p as [|x p]; [lia|]. destruct (is_root x); lia. }
  split.
  - intros (k & -> & Hk1 & Hk2). exists k. split; [done|]. split; [lia|]. by apply Hlo.
  - intros (k & -> & Hk & Hr). exists k. split; [done|]. apply Hlo in Hr. lia.
Qed.

Lemma mkdir_parents_only_new fs p : only_new_dirs fs (mkdir_parents fs p).1.
Proof. apply mkdir_chain_only_new. Qed.

Lemma mkdir_parents_ok fs p :
  (mkdir_parents fs p).2 = true → is_dir (mkdir_parents fs p).1 p = Some true.
Proof.
  unfold mkdir_parents. destruct (lineage_head p) as [ups ->]. apply mkdir_chain_ok.
Qed.

(** Every path of the lineage of a directory is a directory. *)
Lemma enter_Ok fs loc x l :
  enter fs loc x = Ok l → entry fs loc = Some NDir.
Proof. unfold enter. by destruct (entry fs loc) as [[|i]|]. Qed.

Lemma walk_take fs names : ∀ loc l j,
  walk fs loc names = Ok l → entry fs l = Some NDir →
  ∃ lj, walk fs loc (take j names) = Ok lj ∧ entry fs lj = Some NDir.
Proof.
  induction names as [|x names IH]; simpl; intros loc l j Hw He.
  - rewrite take_nil. simplify_eq. eauto.
  - destruct (enter fs loc x) as [loc'|e] eqn:E; [|done].
    destruct j as [|j]; simpl.
    + apply enter_Ok in E. eauto.
    + rewrite E. by apply (IH loc' l j).
Qed.

Lemma utf8_length_app a b : utf8_length (a +:+ b) = utf8_length a + utf8_length b.
Proof.
  unfold utf8_length. induction a as [|x a IH]; [done|].
  change (String x a +:+ b) with (String x (a +:+ b)).
  cbn [list_ascii_of_string]. rewrite !fmap_cons. cbn [sum_list sum_list_with].
  rewrite IH. lia.
Qed.

Lemma join_take_length sep l : ∀ k,
  utf8_length (join sep (take k l)) ≤ utf8_length (join sep l).
Proof.
  induction l as [|x l IH]; intros k; [by rewrite take_nil|].
  destruct k as [|k]; [change (utf8_length (join sep (take 0 (x :: l)))) with 0; lia|].
  specialize (IH k). destruct l as [|y l].
  - change (take (S k) [x]) with (x :: take k []). by rewrite take_nil.
  - destruct k as [|k].
    + change (join sep (take 1 (x :: y :: l))) with x.
      change (join sep (x :: y :: l)) with (x +:+ sep +:+ join sep (y :: l)).
      rewrite !utf8_length_app. lia.
    + change (take (S (S k)) (x :: y :: l)) with (x :: y :: take k l) in *.
      change (take (S k) (y :: l)) with (y :: take k l) in IH.
      change (join sep (x :: y :: take k l))
        with (x +:+ sep +:+ join sep (y :: take k l)).
      change (join sep (x :: y :: l)) with (x +:+ sep +:+ join sep (y :: l)).
      rewrite !utf8_length_app. lia.
Qed.

Lemma path_str_take_length p k :
  1 ≤ k → utf8_length (path_str (take k p)) ≤ utf8_length (path_str p).
Proof.
  intros Hk. destruct k as [|k]; [lia|]. destruct p as [|x p]; [done|].
  change (take (S k) (x :: p)) with (x :: take k p). unfold path_str.
  destruct (is_root x).
  - rewrite !utf8_length_app. pose proof (join_take_length "/" p k). lia.
  - apply (join_take_length "/" (x :: p) (S k)).
Qed.

Lemma has_nul_take p k : has_nul p = false → has_nul (take k p) = false.
Proof.
  unfold has_nul. revert k. induction p as [|x p IH]; intros k; [by rewrite take_nil|].
  destruct k as [|k]; [done|]. simpl.
  rewrite !orb_false_iff. intros [-> H]. split; [done|]. by apply IH.
Qed.

Lemma locate_Ok fs p loc :
  locate fs p = Ok loc →
  has_nul p = false ∧ utf8_length (path_str p) < PATH_MAX
  ∧ walk fs (start_of fs p) (names_of p) = Ok loc.
Proof.
  unfold locate. destruct (has_nul p); [done|].
  destruct (PATH_MAX <=? _) eqn:E; [done|]. apply Nat.leb_gt in E. done.
Qed.

Lemma is_dir_true fs p :
  is_dir fs p = Some true ↔ ∃ loc, locate fs p = Ok loc ∧ entry fs loc = Some NDir.
Proof.
  unfold is_dir, stat. destruct (locate fs p) as [loc|e]; simpl.
  - split.
    + destruct (entry fs loc) as [[|i]|] eqn:E; simpl; try done. eauto.
    + by intros (l & [= <-] & ->).
  - split; [by destruct (ignored e)|]. by intros (l & ? & _).
Qed.

Lemma lineage_is_dir fs p q :
  is_dir fs p = Some true → q ∈ lineage p → is_dir fs q = Some true.
Proof.
  intros (loc & Hl & He)%is_dir_true (k & -> & Hk & Hr)%elem_of_lineage.
  apply locate_Ok in Hl as (Hnul & Hlen & Hw).
  assert (Hq : ∃ j, names_of (take k p) = take j (names_of p)
                    ∧ start_of fs (take k p) = start_of fs p).
  { destruct p as [|x p]; [exists 0; by rewrite take_nil|].
    destruct k as [|k]; simpl.
    - destruct (is_root x); [lia|]. by exists 0.
    - destruct (is_root x); [by exists k|by exists (S k)]. }
  destruct Hq as (j & Hn & Hs).
  destruct (walk_take fs _ _ _ j Hw He) as (lj & Hwj & Hej).
  apply is_dir_true. exists lj. split; [|done].
  unfold locate. rewrite (has_nul_take _ _ Hnul), Hn, Hs, Hwj.
  destruct k as [|k].
  - rewrite take_0. by vm_compute.
  - pose proof (path_str_take_length p (S k) ltac:(lia)) as Hle.
    destruct (PATH_MAX <=? _) eqn:E; [|done]. apply Nat.leb_le in E. lia.
Qed.

(** The run when no input file is found, and when the inputs cannot be
    examined, in terms of the directory creation. *)
Lemma main_no_files args fs :
  iter_input_files (mkdir_parents fs (Path_of (output args))).1 (input args) = Some [] →
  main args fs
  = let r := mkdir_parents fs (Path_of (output args)) in
    if r.2
    then Outcome 2 r.1 []
           ((collect_inputs r.1 (input args)).2
            ++ ["[ERRO] Nenhum arquivo de entrada encontrado."])
    else crash r.1 [] [].
Proof.
  intros H. unfold main.
  destruct (mkdir_parents fs (Path_of (output args))) as [fs1 ok].
  simpl in *. destruct ok; simpl; [|done]. by rewrite H.
Qed.

Lemma main_raises args fs :
  iter_input_files (mkdir_parents fs (Path_of (output args))).1 (input args) = None →
  main args fs
  = let r := mkdir_parents fs (Path_of (output args)) in
    crash r.1 [] (if r.2 then (collect_inputs r.1 (input args)).2 else []).
Proof.
  intros H. unfold main.
  destruct (mkdir_parents fs (Path_of (output args))) as [fs1 ok].
  simpl in *. destruct ok; simpl; [|done]. by rewrite H.
Qed.

(** The status 2 is that of the run that found no input file. *)
Lemma main_exit_2 args fs :
  exit_status (main args fs) = 2 →
  (mkdir_parents fs (Path_of (output args))).2 = true
  ∧ iter_input_files (mkdir_parents fs (Path_of (output args))).1 (input args) = Some [].
Proof.
  unfold main.
  destruct (mkdir_parents fs (Path_of (output args))) as [fs1 ok].
  simpl. destruct ok; simpl; [|done].
  destruct (iter_input_files fs1 (input args)) as [[|f fls]|] eqn:Hf; [done| |done].
  repeat (case_match; simpl; try done).
Qed.

(** C6, as the program has it: when no log file is resolved from the input
    paths, the run ends with a status that is not zero and writes no
    report: no file is created, removed or changed, a report path that
    names a file afterwards names one that was there before, with what it
    held, and nothing is printed on the standard output.  The status is the
    2 of [sys.exit(2)] exactly when the output directory could be made and
    every input could be examined; otherwise the run has stopped on the
    exception of the [mkdir] or of the examination of an input, with the
    status 1 of any uncaught exception. *)
Theorem no_input_files_is_fatal (args : Args) (fs : filesystem) :
  let made := mkdir_parents fs (Path_of (output args)) in
  let resolved := iter_input_files made.1 (input args) in
  let fs' := fs_after (main args fs) in
  (∀ f fls, resolved ≠ Some (f :: fls)) →
  exit_status (main args fs)
  = (if made.2 && bool_decide (resolved = Some []) then 2 else 1)
  ∧ exit_status (main args fs) ≠ 0
  ∧ store fs' = store fs
  ∧ (∀ loc i, nodes fs' !! loc = Some (NFile i) ↔ nodes fs !! loc = Some (NFile i))
  ∧ (∀ loc n, nodes fs !! loc = Some n → nodes fs' !! loc = Some n)
  ∧ (∀ p i, p ∈ [det_csv_path args; sum_csv_path args; md_path args; json_path args] →
       node_at fs' p = Some (NFile i) →
       ∃ loc, locate fs' p = Ok loc ∧ nodes fs !! loc = Some (NFile i)
              ∧ store fs' !! i = store fs !! i)
  ∧ stdout (main args fs) = [].
Proof.
  intros made resolved fs' Hnone.
  pose proof (mkdir_parents_only_new fs (Path_of (output args))) as Hnew.
  fold made in Hnew.
  assert (Hrun : fs' = made.1 ∧ stdout (main args fs) = []
                 ∧ exit_status (main args fs)
                   = if made.2 && bool_decide (resolved = Some []) then 2 else 1).
  { subst fs'. destruct resolved as [[|f fls]|] eqn:Hr.
    - rewrite (main_no_files args fs Hr). fold made. simpl.
      by destruct made.2.
    - by destruct (Hnone f fls).
    - rewrite (main_raises args fs Hr). fold made. simpl.
      by rewrite andb_false_r. }
  destruct Hrun as (Hfs & Hout & Hst). rewrite Hfs.
  split; [done|]. split; [rewrite Hst; by destruct (_ && _)|].
  split; [by destruct Hnew as (_ & _ & ? & _)|].
  split; [intros loc i; by apply only_new_dirs_file|].
  split.
  { intros loc n Hn. destruct Hnew as (_ & _ & _ & H).
    destruct (H loc) as [->|[E _]]; congruence. }
  split; [|done].
  intros p i _ Hp. apply node_at_Some in Hp. unfold stat in Hp.
  destruct (locate made.1 p) as [loc|e] eqn:Hl; simpl in Hp; [|done].
  destruct (entry made.1 loc) as [n|] eqn:He; simplify_eq.
  exists loc. split; [done|]. split.
  - apply (only_new_dirs_file _ _ _ _ Hnew). by apply entry_file.
  - by destruct Hnew as (_ & _ & -> & _).
Qed.

Lemma no_input_files_is_fatal_witness :
  exit_status (main (MkArgs ["missing"; "logs/none"] "out/reports" "logs" true) example_fs) = 2.
Proof.
  refine (eq_trans
            (proj1 (no_input_files_is_fatal
                      (MkArgs ["missing"; "logs/none"] "out/reports" "logs" true)
                      example_fs _)) _).
  - intros f fls. vm_compute. intros H. discriminate H.
  - vm_compute. reflexivity.
Defined.

(** A name of 300 characters is too long for the system: the input names
    nothing and no log file is resolved from it, yet the run does not end
    with the status 2, but with the status 1 of the [OSError] that
    [Path.is_dir] raises.  So does the run whose output directory cannot be
    made because a file is in the way.  The status 1 is not theirs alone:
    a run that resolved two files and could not write its first report
    ends with it as well. *)
Lemma unexamined_input_is_status_1 :
  let long := string_of_list_ascii (replicate 300 "a"%char) in
  node_at example_fs (Path_of long) = None
  ∧ iter_input_files (mkdir_parents example_fs (Path_of "out")).1 [long] = None
  ∧ exit_status (main (MkArgs [long] "out" "logs" false) example_fs) = 1
  ∧ iter_input_files (mkdir_parents example_fs (Path_of "logs/a.txt/out")).1 ["missing"]
    = Some []
  ∧ exit_status (main (MkArgs ["missing"] "logs/a.txt/out" "logs" false) example_fs) = 1
  ∧ iter_input_files (mkdir_parents example_fs (Path_of "out")).1 ["logs"]
    = Some [["logs"; "a.txt"]; ["logs"; "b.txt"]]
  ∧ exit_status (main (MkArgs ["logs"] "out" "nowhere/logs" false) example_fs) = 1.
Proof. vm_compute. repeat split. Qed.

(** C10: a run that ends with the status 2 of "no input file" has made the
    output directory first: in the file system it leaves, the output path,
    its parent, the parent of that and so on are all directories, whether
    they were there before or not, and it is in that file system that the
    inputs were looked for and not found.  Nothing else is touched: the
    files hold what they held, every location that held something holds the
    same thing, and what is new is a directory at the place that the output
    path or one of its parents names. *)
Theorem output_directory_made_before_abort (args : Args) (fs : filesystem) :
  exit_status (main args fs) = 2 →
  let outdir := Path_of (output args) in
  let fs' := fs_after (main args fs) in
  fs' = (mkdir_parents fs outdir).1
  ∧ iter_input_files fs' (input args) = Some []
  ∧ is_dir fs' outdir = Some true
  ∧ (∀ q, q ∈ lineage outdir → is_dir fs' q = Some true)
  ∧ store fs' = store fs
  ∧ (∀ loc n, nodes fs !! loc = Some n → nodes fs' !! loc = Some n)
  ∧ (∀ loc, nodes fs' !! loc ≠ nodes fs !! loc →
       nodes fs !! loc = None ∧ nodes fs' !! loc = Some NDir
       ∧ ∃ q, q ∈ lineage outdir ∧ locate fs' q = Ok loc).
Proof.
  intros H outdir fs'. destruct (main_exit_2 args fs H) as [Hok Hnone].
  fold outdir in Hok, Hnone.
  assert (Hfs : fs' = (mkdir_parents fs outdir).1).
  { subst fs'. rewrite (main_no_files args fs Hnone). fold outdir. simpl.
    by rewrite Hok. }
  pose proof (mkdir_parents_only_new fs outdir) as Hnew.
  pose proof (mkdir_parents_ok fs outdir Hok) as Hdir.
  rewrite Hfs.
  split; [done|]. split; [done|]. split; [done|].
  split; [intros q Hq; by apply (lineage_is_dir _ outdir)|].
  split; [by destruct Hnew as (_ & _ & ? & _)|].
  split.
  { intros loc n Hn. destruct Hnew as (_ & _ & _ & Hn').
    destruct (Hn' loc) as [->|[E _]]; congruence. }
  intros loc Hne. destruct Hnew as (_ & _ & _ & Hn').
  destruct (Hn' loc) as [E|[E E']]; [done|].
  split; [done|]. split; [done|].
  by apply (mkdir_chain_new (lineage outdir) fs loc).
Qed.

Lemma output_directory_made_before_abort_witness :
  let args := MkArgs ["missing"; "logs/none"] "out/../reports" "logs" true in
  is_dir example_fs ["out"] = Some false
  ∧ is_dir (fs_after (main args example_fs)) ["out"] = Some true
  ∧ is_dir (fs_after (main args example_fs)) ["out"; ".."; "reports"] = Some true.
Proof.
  intros args. split; [vm_compute; reflexivity|]. split.
  - refine (proj1 (proj2 (proj2 (proj2 (output_directory_made_before_abort
                                          args example_fs _)))) ["out"] _).
    + vm_compute; reflexivity.
    + apply elem_of_lineage. exists 1. repeat split; simpl; lia.
  - refine (proj1 (proj2 (proj2 (output_directory_made_before_abort
                                   args example_fs _)))).
    vm_compute; reflexivity.
Defined.

(** ** Orders and sorting *)

Lemma string_compare_refl s : String.compare s s = Eq.
Proof.
  induction s as [|a s IH]; simpl; [done|].
  unfold Ascii.compare. by rewrite N.compare_refl.
Qed.

Lemma string_compare_lt_trans a b c :
  String.compare a b = Lt → String.compare b c = Lt → String.compare a c = Lt.
Proof.
  intros Hab Hbc.
  assert (Hle : String.le a c).
  { transitivity b; unfold String.le, String.leb; [by rewrite Hab|by rewrite Hbc]. }
  unfold String.le, String.leb in Hle.
  destruct (String.compare a c) eqn:Hac; [|done|done].
  apply String.compare_eq_iff in Hac as ->.
  rewrite String.compare_antisym, Hbc in Hab. done.
Qed.

Lemma path_compare_refl p : path_compare p p = Eq.
Proof. induction p as [|x p IH]; simpl; [done|]. by rewrite string_compare_refl. Qed.

Lemma path_compare_eq p : ∀ q, path_compare p q = Eq → p = q.
Proof.
  induction p as [|x p IH]; intros [|y q]; simpl; try done.
  destruct (String.compare x y) eqn:Hxy; try done.
  apply String.compare_eq_iff in Hxy as ->. intros H. f_equal. by apply IH.
Qed.

Lemma path_compare_antisym p : ∀ q, path_compare p q = CompOpp (path_compare q p).
Proof.
  induction p as [|x p IH]; intros [|y q]; simpl; try done.
  rewrite (String.compare_antisym y x).
  destruct (String.compare x y); simpl; auto.
Qed.

Lemma path_compare_lt_trans p : ∀ q r,
  path_compare p q = Lt → path_compare q r = Lt → path_compare p r = Lt.
Proof.
  induction p as [|x p IH]; intros [|y q] [|z r]; simpl; try done.
  destruct (String.compare x y) eqn:Hxy; try done.
  - apply String.compare_eq_iff in Hxy as ->.
    destruct (String.compare y z); try done. apply IH.
  - destruct (String.compare y z) eqn:Hyz; try done.
    + apply String.compare_eq_iff in Hyz as <-. by rewrite Hxy.
    + by rewrite (string_compare_lt_trans _ _ _ Hxy Hyz).
Qed.

Global Instance path_le_trans : Transitive path_le.
Proof.
  intros p q r. unfold path_le, path_leb.
  destruct (path_compare p q) eqn:Hpq; try done;
    destruct (path_compare q r) eqn:Hqr; try done; intros _ _.
  - apply path_compare_eq in Hpq as ->. by rewrite Hqr.
  - apply path_compare_eq in Hpq as ->. by rewrite Hqr.
  - apply path_compare_eq in Hqr as <-. by rewrite Hpq.
  - by rewrite (path_compare_lt_trans _ _ _ Hpq Hqr).
Qed.

Global Instance path_le_antisym : AntiSymm (=) path_le.
Proof.
  intros p q. unfold path_le, path_leb. rewrite (path_compare_antisym q p).
  destruct (path_compare p q) eqn:Hpq; try done. intros _ _.
  by apply path_compare_eq.
Qed.

Lemma path_leb_total p q : path_leb p q = true ∨ path_leb q p = true.
Proof.
  unfold path_leb. rewrite (path_compare_antisym q p).
  destruct (path_compare p q); simpl; auto.
Qed.

Lemma str_le_le a b : str_le a b ↔ String.le a b.
Proof. unfold str_le, string_leb, String.le. by rewrite Is_true_true. Qed.

Global Instance str_le_trans : Transitive str_le.
Proof. intros a b c. rewrite !str_le_le. apply transitivity. Qed.

Global Instance str_le_antisym : AntiSymm (=) str_le.
Proof. intros a b. rewrite !str_le_le. apply (anti_symm String.le). Qed.

Lemma string_leb_total a b : string_leb a b = true ∨ string_leb b a = true.
Proof. apply String.leb_total. Qed.

Section sorted.
Context {A : Type} (leb : A → A → bool).
Hypothesis leb_total : ∀ x y, leb x y = true ∨ leb y x = true.

Let R (x y : A) : Prop := leb x y = true.

Lemma insert_sorted_perm x l : insert_sorted leb x l ≡ₚ x :: l.
Proof.
  induction l as [|y l IH]; simpl; [done|].
  destruct (leb x y); [done|]. rewrite IH. apply Permutation_swap.
Qed.

Lemma sorted_perm l : sorted leb l ≡ₚ l.
Proof.
  induction l as [|x l IH]; simpl; [done|].
  unfold sorted in *. by rewrite insert_sorted_perm, IH.
Qed.

Lemma insert_sorted_HdRel a x l :
  R a x → HdRel R a l → HdRel R a (insert_sorted leb x l).
Proof.
  intros Hax Hl. destruct l as [|y l]; simpl; [by constructor|].
  destruct (leb x y); constructor; [done|]. by inversion Hl.
Qed.

Lemma insert_sorted_Sorted x l : Sorted R l → Sorted R (insert_sorted leb x l).
Proof.
  induction 1 as [|y l Hl IH Hy]; simpl; [by repeat constructor|].
  destruct (leb x y) eqn:Hxy.
  - constructor; [by constructor|]. by constructor.
  - constructor; [done|]. apply insert_sorted_HdRel; [|done].
    destruct (leb_total x y) as [H|H]; [congruence|done].
Qed.

Lemma sorted_Sorted l : Sorted R (sorted leb l).
Proof.
  induction l as [|x l IH]; simpl; [constructor|].
  by apply insert_sorted_Sorted.
Qed.

(** The stable sort of two orders of the same elements is the same list
    when the order tells all elements apart. *)
Lemma sorted_unique `{!Transitive R, !AntiSymm (=) R} l1 l2 :
  l1 ≡ₚ l2 → sorted leb l1 = sorted leb l2.
Proof.
  intros H. apply (Sorted_unique R); auto using sorted_Sorted.
  by rewrite !sorted_perm.
Qed.
End sorted.

(** Two listings of the same set of paths give the same list of input
    files. *)
Lemma sorted_set_paths (l1 l2 : list Path) :
  (∀ p, p ∈ l1 ↔ p ∈ l2) →
  sorted path_leb (remove_dups l1) = sorted path_leb (remove_dups l2).
Proof.
  intros H. apply (sorted_unique path_leb path_leb_total).
  apply NoDup_Permutation; auto using NoDup_remove_dups.
  intros p. by rewrite !elem_of_remove_dups.
Qed.

Lemma iter_input_files_Some fs inputs fls :
  iter_input_files fs inputs = Some fls
  ↔ ∃ files, (collect_inputs fs inputs).1 = Some files
             ∧ fls = sorted path_leb (remove_dups files).
Proof.
  unfold iter_input_files. destruct (collect_inputs fs inputs).1 as [files|]; simpl.
  - split; [intros [= <-]; eauto|]. by intros (? & [= <-] & ->).
  - split; [done|]. by intros (? & ? & _).
Qed.

Lemma elem_of_iter_input_files fs inputs fls files p :
  iter_input_files fs inputs = Some fls →
  (collect_inputs fs inputs).1 = Some files →
  p ∈ fls ↔ p ∈ files.
Proof.
  intros (files' & Hf & ->)%iter_input_files_Some Hf'. simplify_eq.
  by rewrite sorted_perm, elem_of_remove_dups.
Qed.

Lemma iter_input_files_NoDup fs inputs fls :
  iter_input_files fs inputs = Some fls → NoDup fls.
Proof.
  intros (files & _ & ->)%iter_input_files_Some.
  rewrite sorted_perm. apply NoDup_remove_dups.
Qed.

Lemma iter_input_files_sorted fs inputs fls :
  iter_input_files fs inputs = Some fls → StronglySorted path_le fls.
Proof.
  intros (files & _ & ->)%iter_input_files_Some.
  apply Sorted_StronglySorted; [apply _|].
  apply (sorted_Sorted path_leb path_leb_total).
Qed.

(** ** One occurrence per matching line *)

Lemma scan_line_length pats fpath lineno ln st :
  length (occurrences (scan_line pats fpath lineno ln st))
  = length (occurrences st) + (if matched pats ln then 1 else 0).
Proof.
  induction pats as [|[n r] pats IH]; simpl; [lia|].
  destruct (re_search true r ln); simpl; [|done].
  rewrite length_app. simpl. lia.
Qed.

Lemma scan_lines_length pats fpath lns : ∀ lineno st,
  length (occurrences (scan_lines pats fpath lineno lns st))
  = length (occurrences st) + hits pats lns.
Proof.
  unfold hits. induction lns as [|ln lns IH]; simpl; intros; [lia|].
  rewrite IH, scan_line_length, filter_cons.
  destruct (matched pats ln); simpl; lia.
Qed.

Lemma scan_file_length pats fs st fpath :
  length (occurrences (scan_file pats fs st fpath))
  = length (occurrences st) + hits pats (open_lines fs fpath).1.
Proof.
  unfold scan_file. destruct (open_lines fs fpath) as [lns err].
  pose proof (scan_lines_length pats fpath lns 1 st) as H. by destruct err.
Qed.

Lemma foldl_scan_file_length pats fs fls : ∀ st,
  length (occurrences (foldl (scan_file pats fs) st fls))
  = length (occurrences st)
    + sum_list_with (λ f, hits pats (open_lines fs f).1) fls.
Proof.
  induction fls as [|f fls IH]; simpl; intros; [lia|].
  rewrite IH, scan_file_length. lia.
Qed.

Lemma analyze_files_length fs fls :
  length (occurrences (analyze_files fs fls))
  = sum_list_with (λ f, hits compiled (open_lines fs f).1) fls.
Proof.
  unfold analyze_files, analyze_files_with. simpl.
  by rewrite foldl_scan_file_length.
Qed.

(** ** The summary table *)

Lemma row_leb_spec a b :
  row_le a b ↔ count b.2 < count a.2 ∨ (count a.2 = count b.2 ∧ str_le a.1 b.1).
Proof.
  unfold row_le, row_leb, str_le.
  rewrite orb_true_iff, andb_true_iff, Nat.ltb_lt, Nat.eqb_eq. done.
Qed.

Lemma row_leb_total a b : row_leb a b = true ∨ row_leb b a = true.
Proof.
  fold (row_le a b) (row_le b a). rewrite !row_leb_spec. unfold str_le.
  destruct (string_leb_total a.1 b.1); destruct (Nat.lt_total (count a.2) (count b.2))
    as [?|[?|?]]; auto.
Qed.

Global Instance row_le_trans : Transitive row_le.
Proof.
  intros a b c. rewrite !row_leb_spec.
  intros [?|[? ?]] [?|[? ?]]; [left; lia|left; lia|left; lia|].
  right. split; [lia|]. by transitivity b.1.
Qed.

Lemma same_elements_spec l1 l2 :
  same_elements l1 l2 = true → ∀ p, p ∈ l1 ↔ p ∈ l2.
Proof.
  unfold same_elements. rewrite andb_true_iff, !forallb_forall.
  intros [H1 H2] p. rewrite !list_elem_of_In.
  split; intros Hp; [apply H1 in Hp|apply H2 in Hp];
    apply bool_decide_eq_true in Hp; by apply list_elem_of_In.
Qed.

(** C5: the summary CSV does not depend on what Python leaves open.  Two
    runs over the same files to which the directory walk and the set of
    collected paths hand the same paths over in different orders (and with
    different repetitions) write the same summary CSV, character for
    character; so does a set of affected files iterated in another order.
    The text is the header line followed by the lines of the summary
    entries, each once, and nothing else; the lines come sorted by count
    from the largest down and, for equal counts, by error name upwards. *)
Theorem summary_csv_is_deterministic
    (fs : filesystem) (listing1 listing2 : list Path) :
  (∀ p, p ∈ listing1 ↔ p ∈ listing2) →
  summary_csv_of_run fs listing1 = summary_csv_of_run fs listing2
  ∧ (∀ inputs fls, iter_input_files fs inputs = Some fls →
       (∀ p, p ∈ listing1 ↔ p ∈ fls) →
       summary_csv_of_run fs listing1 = csv_summary (summary (analyze_files fs fls)))
  ∧ (∀ fl fl' : list string, fl ≡ₚ fl' → sorted string_leb fl = sorted string_leb fl')
  ∧ ∀ d : Summary,
      csv_summary d
      = csv_row SUMMARY_FIELDS +:+ join "" (summary_line <$> summary_rows d)
      ∧ summary_rows d ≡ₚ d
      ∧ StronglySorted row_le (summary_rows d)
      ∧ ∀ a b, row_le a b
               ↔ count b.2 < count a.2 ∨ (count a.2 = count b.2 ∧ str_le a.1 b.1).
Proof.
  intros H. unfold summary_csv_of_run.
  split; [by rewrite (sorted_set_paths listing1 listing2 H)|].
  split.
  { intros inputs fls Hfls Hin.
    pose proof (iter_input_files_NoDup _ _ _ Hfls) as Hnd.
    pose proof (iter_input_files_sorted _ _ _ Hfls) as Hs.
    apply iter_input_files_Some in Hfls as (files & Hf & ->).
    rewrite (sorted_set_paths listing1 files); [done|].
    intros p. by rewrite Hin, sorted_perm, elem_of_remove_dups. }
  split; [intros fl fl' Hfl; by apply (sorted_unique string_leb string_leb_total)|].
  intros d. split; [done|]. split; [apply sorted_perm|].
  split; [|apply row_leb_spec].
  apply Sorted_StronglySorted; [apply _|].
  apply (sorted_Sorted row_leb row_leb_total).
Qed.

Lemma summary_csv_is_deterministic_witness :
  summary_csv_of_run example_fs
    [["logs"; "b.txt"]; ["logs"; "a.txt"]; ["logs"; "..";  "logs"; "a.txt"]]
  = summary_csv_of_run example_fs
      [["logs"; "a.txt"]; ["logs"; ".."; "logs"; "a.txt"]; ["logs"; "a.txt"];
       ["logs"; "b.txt"]].
Proof.
  refine (proj1 (summary_csv_is_deterministic example_fs _ _
                   (same_elements_spec _ _ _))).
  vm_compute; reflexivity.
Defined.

(** ** The matcher finds matches *)

Lemma orelse_Some {A} (a b : option A) x :
  orelse a b = Some x → a = Some x ∨ b = Some x.
Proof. destruct a; simpl; auto. Qed.

Lemma rep_sound {A} ic c g s : ∀ lo hi (k : string → option A) x,
  rep ic c g lo hi s k = Some x →
  ∃ pre s', s = pre +:+ s' ∧ all_accepted ic c pre ∧ lo ≤ String.length pre
            ∧ (∀ h, hi = Some h → String.length pre ≤ h) ∧ k s' = Some x.
Proof.
  induction s as [|a s IH]; intros lo hi k x H.
  - assert (Hstop : (if lo =? 0 then k "" else None) = Some x).
    { simpl in H. destruct g; simpl in H; [done|].
      by destruct (if lo =? 0 then k "" else None). }
    destruct (lo =? 0) eqn:Hlo; [|done]. apply Nat.eqb_eq in Hlo as ->.
    exists "", "". repeat split; try done. intros; simpl; lia.
  - assert (Hcases :
      (accepts ic c a && hi_allows hi = true
       ∧ rep ic c g (pred lo) (pred <$> hi) s k = Some x)
      ∨ (lo = 0 ∧ k (String a s) = Some x)).
    { simpl in H. destruct g; apply orelse_Some in H as [H|H].
      - left. destruct (accepts ic c a && hi_allows hi); [done|done].
      - right. destruct (lo =? 0) eqn:Hlo; [|done]. by apply Nat.eqb_eq in Hlo.
      - right. destruct (lo =? 0) eqn:Hlo; [|done]. by apply Nat.eqb_eq in Hlo.
      - left. destruct (accepts ic c a && hi_allows hi); [done|done]. }
    destruct Hcases as [[Hacc Hrec]|[-> Hk]].
    + apply andb_true_iff in Hacc as [Hacc Hhi].
      destruct (IH _ _ _ _ Hrec) as (pre & s' & -> & Hall & Hlo & Hhi' & Hk).
      exists (String a pre), s'. repeat split; try done.
      * unfold all_accepted in *. simpl. by rewrite Hacc, Hall.
      * simpl. lia.
      * intros h ->. simpl in *. destruct h as [|h]; [done|].
        specialize (Hhi' h eq_refl). lia.
    + exists "", (String a s). repeat split; try done. intros; simpl; lia.
Qed.

Lemma rmatch_sound {A} ic r : ∀ s cs (k : string → caps → option A) x,
  rmatch ic r s cs k = Some x →
  ∃ s' cs', matches ic r s cs s' cs' ∧ k s' cs' = Some x.
Proof.
  induction r as [|c|c lo hi g|r1 IH1 r2 IH2|r1 IH1 r2 IH2|n r IH|];
    intros s cs k x H; simpl in H.
  - exists s, cs. split; [constructor|done].
  - destruct s as [|a s]; [done|]. destruct (accepts ic c a) eqn:Hacc; [|done].
    exists s, cs. split; [by constructor|done].
  - apply rep_sound in H as (pre & s' & -> & Hall & Hlo & Hhi & Hk).
    exists s', cs. split; [by constructor|done].
  - apply IH1 in H as (s1 & cs1 & H1 & H). apply IH2 in H as (s2 & cs2 & H2 & H).
    exists s2, cs2. split; [by econstructor|done].
  - apply orelse_Some in H as [H|H].
    + apply IH1 in H as (s' & cs' & H1 & H). exists s', cs'.
      split; [by apply m_alt_l|done].
    + apply IH2 in H as (s' & cs' & H2 & H). exists s', cs'.
      split; [by apply m_alt_r|done].
  - apply IH in H as (s' & cs' & H1 & H). exists s', ((n, taken s s') :: cs').
    split; [by constructor|done].
  - destruct (at_end s) eqn:He; [|done]. exists s, cs. split; [by constructor|done].
Qed.

Lemma re_match_sound ic r s m :
  re_match ic r s = Some m →
  ∃ s' cs, matches ic r s [] s' cs ∧ m = MatchObj (taken s s') cs.
Proof.
  unfold re_match. intros H. apply rmatch_sound in H as (s' & cs & H & Hm).
  exists s', cs. split; [done|congruence].
Qed.

Lemma re_search_sound ic r s m :
  re_search ic r s = Some m → ∃ start, re_match ic r start = Some m.
Proof.
  induction s as [|a s IH]; simpl; intros H; apply orelse_Some in H as [H|H];
    eauto; done.
Qed.

(** ** Shapes of the timestamp layouts *)

Lemma string_length_app a b :
  String.length (a +:+ b) = String.length a + String.length b.
Proof. induction a as [|x a IH]; simpl; [done|]. by f_equal. Qed.

Lemma taken_prefix pre s : taken (pre +:+ s) s = pre.
Proof.
  unfold taken. rewrite string_length_app.
  replace (String.length pre + String.length s - String.length s)
    with (String.length pre) by lia.
  induction pre as [|a pre IH]; simpl.
  - by destruct s.
  - f_equal. exact IH.
Qed.

Lemma matches_rep_exact ic c n g s cs s' cs' :
  matches ic (RRep c n (Some n) g) s cs s' cs' →
  cs' = cs ∧ ∃ pre, s = pre +:+ s' ∧ String.length pre = n ∧ all_accepted ic c pre.
Proof.
  inversion 1; subst. split; [done|]. eexists. split; [done|]. split; [|done].
  match goal with H : ∀ h, _ → _ |- _ => specialize (H _ eq_refl) end. lia.
Qed.

Lemma matches_set ic c s cs s' cs' :
  matches ic (RSet c) s cs s' cs' →
  cs' = cs ∧ ∃ x, s = String x s' ∧ accepts ic c x = true.
Proof. inversion 1; subst. eauto. Qed.

Lemma matches_cat ic r1 r2 s cs s' cs' :
  matches ic (RCat r1 r2) s cs s' cs' →
  ∃ s1 cs1, matches ic r1 s cs s1 cs1 ∧ matches ic r2 s1 cs1 s' cs'.
Proof. inversion 1; subst. eauto. Qed.

Lemma matches_group ic n r s cs s' cs' :
  matches ic (RGroup n r) s cs s' cs' →
  ∃ cs1, matches ic r s cs s' cs1 ∧ cs' = (n, taken s s') :: cs1.
Proof. inversion 1; subst. eauto. Qed.

Lemma matches_eps ic s cs s' cs' :
  matches ic REps s cs s' cs' → s' = s ∧ cs' = cs.
Proof. by inversion 1. Qed.

Lemma matches_rep_caps ic c lo hi g s cs s' cs' :
  matches ic (RRep c lo hi g) s cs s' cs' → cs' = cs.
Proof. by inversion 1. Qed.

Lemma accepted_2 ic c pre :
  String.length pre = 2 → all_accepted ic c pre →
  ∃ a b, pre = String a (String b "") ∧ accepts ic c a = true ∧ accepts ic c b = true.
Proof.
  destruct pre as [|a [|b [|]]]; try done. unfold all_accepted. simpl.
  rewrite !andb_true_iff. intros _ (?&?&_). eauto.
Qed.

Lemma accepted_4 ic c pre :
  String.length pre = 4 → all_accepted ic c pre →
  ∃ a b a' b', pre = String a (String b (String a' (String b' "")))
    ∧ accepts ic c a = true ∧ accepts ic c b = true
    ∧ accepts ic c a' = true ∧ accepts ic c b' = true.
Proof.
  destruct pre as [|a [|b [|a' [|b' [|]]]]]; try done. unfold all_accepted. simpl.
  rewrite !andb_true_iff. intros _ (?&?&?&?&_). eauto 10.
Qed.

Ltac inv_match :=
  repeat match goal with
  | H : matches _ (RCat _ _) _ _ _ _ |- _ =>
      apply matches_cat in H as (? & ? & ? & ?)
  | H : matches _ (RGroup _ _) _ _ _ _ |- _ =>
      apply matches_group in H as (? & ? & ->)
  | H : matches _ (RSet _) _ _ _ _ |- _ =>
      apply matches_set in H as (-> & ? & -> & ?)
  | H : matches _ REps _ _ _ _ |- _ =>
      apply matches_eps in H as (-> & ->)
  | H : matches _ (RRep _ ?n (Some ?n) _) _ _ _ _ |- _ =>
      apply matches_rep_exact in H as (-> & ? & -> & ? & ?)
  | H : matches _ (RRep _ _ None _) _ _ _ _ |- _ =>
      apply matches_rep_caps in H as ->
  end.

Lemma accepts_lit c x : accepts false (CLit c) x = true → x = c.
Proof. simpl. by intros ?%bool_decide_eq_true. Qed.

Ltac digits :=
  repeat match goal with
  | H : String.length ?p = 2, H' : all_accepted _ _ ?p |- _ =>
      destruct (accepted_2 _ _ _ H H') as (? & ? & -> & ? & ?); clear H H'
  | H : String.length ?p = 4, H' : all_accepted _ _ ?p |- _ =>
      destruct (accepted_4 _ _ _ H H') as (? & ? & ? & ? & -> & ? & ? & ? & ?);
      clear H H'
  | H : accepts false (CLit _) _ = true |- _ => apply accepts_lit in H as ->
  end.

Ltac prefix_form s tail :=
  match s with
  | tail => constr:(EmptyString)
  | String ?a ?r => let p := prefix_form r tail in constr:(String a p)
  | String.append ?a ?r => let p := prefix_form r tail in constr:(String.append a p)
  end.

Ltac take_prefix :=
  match goal with
  | |- context [taken ?s ?t] =>
      let p := prefix_form s t in
      change (taken s t) with (taken (p +:+ t) t); rewrite (taken_prefix p t)
  end.

Lemma ts_bracket_shape start m :
  re_match false TS_BRACKET start = Some m →
  ∃ d1 d2 d3 d4 d5 d6 d7 d8,
    Forall (λ d, is_digit d = true) [d1; d2; d3; d4; d5; d6; d7; d8]
    ∧ group 1 m
      = String d1 (String d2 (String "/" (String d3 (String d4 (String "/"
          (String d5 (String d6 (String d7 (String d8 ""))))))))).
Proof.
  intros H. apply re_match_sound in H as (s' & cs & H & ->).
  unfold TS_BRACKET in H. inv_match. digits.
  unfold group; simpl. take_prefix.
  do 8 eexists. split; [|reflexivity].
  repeat constructor; assumption.
Qed.

Lemma ts_iso_shape start m :
  re_match false TS_ISO start = Some m →
  ∃ d1 d2 d3 d4 rest,
    Forall (λ d, is_digit d = true) [d1; d2; d3; d4]
    ∧ group 1 m = String d1 (String d2 (String d3 (String d4 (String "-" rest)))).
Proof.
  intros H. apply re_match_sound in H as (s' & cs & H & ->).
  unfold TS_ISO in H. inv_match. digits.
  unfold group; simpl. take_prefix.
  do 5 eexists. split; [|reflexivity].
  repeat constructor; assumption.
Qed.

Lemma digit_not_slash d : is_digit d = true → bool_decide (d = "/"%char) = false.
Proof.
  intros H. apply bool_decide_eq_false. intros ->. done.
Qed.

Lemma dmy_matches_bracket start m :
  re_match false TS_BRACKET start = Some m →
  is_Some (re_match false dmy_compiled (group 1 m)).
Proof.
  intros H. destruct (ts_bracket_shape _ _ H) as (d1&d2&d3&d4&d5&d6&d7&d8&Hd&->).
  repeat match goal with H : Forall _ (_ :: _) |- _ => apply Forall_cons in H as [? H] end.
  unfold re_match, dmy_compiled. simpl.
  repeat match goal with H : is_digit _ = true |- _ => rewrite H; clear H end.
  simpl. eauto.
Qed.

Lemma dmy_rejects_iso start m :
  re_match false TS_ISO start = Some m →
  re_match false dmy_compiled (group 1 m) = None.
Proof.
  intros H. destruct (ts_iso_shape _ _ H) as (d1&d2&d3&d4&rest&Hd&->).
  repeat match goal with H : Forall _ (_ :: _) |- _ => apply Forall_cons in H as [? H] end.
  unfold re_match, dmy_compiled. simpl.
  rewrite (digit_not_slash d3) by done.
  repeat match goal with H : is_digit _ = true |- _ => rewrite H; clear H end.
  reflexivity.
Qed.

Lemma ts_compiled_layouts : ts_compiled = [TS_BRACKET; TS_ISO].
Proof. reflexivity. Qed.

Lemma normalize_bracket start m :
  re_match false TS_BRACKET start = Some m →
  normalize_timestamp m
  = match strptime_dmy (group 1 m) with
    | Some dt => isoformat dt
    | None => group 1 m
    end.
Proof.
  intros H. unfold normalize_timestamp.
  by destruct (dmy_matches_bracket _ _ H) as [? ->].
Qed.

Lemma normalize_iso start m :
  re_match false TS_ISO start = Some m →
  normalize_timestamp m = replace_space_T (group 1 m).
Proof.
  intros H. unfold normalize_timestamp. rewrite (dmy_rejects_iso _ _ H).
  by destruct (fromisoformat _).
Qed.

(** C4, as the program has it: a line in which one of the two layouts is
    found always gives a string, never nothing, also when the text found is
    not a date.  For the bracketed [DD/MM/YYYY] layout that is not a date
    the string is the text found, as it stands.  For the layout
    [YYYY-MM-DD HH:MM:SS], tried when the first is absent, it is the text
    found with its space replaced by [T], whether it is a date or not: the
    replacement is made before the parse is tried, and the [except] clause
    returns the replaced string. *)
Theorem unparseable_timestamp_is_still_returned (ln : string) :
  (is_Some (re_search false TS_BRACKET ln) ∨ is_Some (re_search false TS_ISO ln) →
   is_Some (extract_timestamp ln))
  ∧ (∀ m, re_search false TS_BRACKET ln = Some m →
          strptime_dmy (group 1 m) = None →
          extract_timestamp ln = Some (group 1 m))
  ∧ (∀ m, re_search false TS_BRACKET ln = None →
          re_search false TS_ISO ln = Some m →
          extract_timestamp ln = Some (replace_space_T (group 1 m))).
Proof.
  unfold extract_timestamp. rewrite ts_compiled_layouts. simpl.
  split; [|split].
  - intros [[m Hm]|[m Hm]].
    + by rewrite Hm.
    + destruct (re_search false TS_BRACKET ln); [done|]. by rewrite Hm.
  - intros m Hm Hp. rewrite Hm. f_equal.
    destruct (re_search_sound _ _ _ _ Hm) as [start Hstart].
    by rewrite (normalize_bracket _ _ Hstart), Hp.
  - intros m Hnone Hm. rewrite Hnone, Hm. f_equal.
    destruct (re_search_sound _ _ _ _ Hm) as [start Hstart].
    by rewrite (normalize_iso _ _ Hstart).
Qed.

Lemma unparseable_timestamp_is_still_returned_witness :
  extract_timestamp "[31/02/2025 | x] forbidden" = Some "31/02/2025".
Proof.
  refine (proj1 (proj2 (unparseable_timestamp_is_still_returned
                          "[31/02/2025 | x] forbidden"))
            (MatchObj "[31/02/2025 |" [(1, "31/02/2025")]) _ _);
    vm_compute; reflexivity.
Defined.

(** The text found in [2025-13-45 12:00:00 boom] is [2025-13-45 12:00:00],
    which is not a date; what [extract_timestamp] returns is not that text
    but [2025-13-45T12:00:00]. *)
Lemma raw_substring_is_not_returned :
  let ln := "2025-13-45 12:00:00 boom" in
  ∃ m, re_search false TS_BRACKET ln = None
       ∧ re_search false TS_ISO ln = Some m
       ∧ group 1 m = "2025-13-45 12:00:00"
       ∧ fromisoformat (group 1 m) = None
       ∧ fromisoformat (replace_space_T (group 1 m)) = None
       ∧ extract_timestamp ln = Some "2025-13-45T12:00:00"
       ∧ extract_timestamp ln ≠ Some (group 1 m).
Proof.
  exists (MatchObj "2025-13-45 12:00:00" [(1, "2025-13-45 12:00:00")]).
  repeat split; try (vm_compute; reflexivity).
  vm_compute. intros H. discriminate H.
Qed.

(** ** The summary is a function of the occurrences *)

Lemma ingest_or_empty d name fpath ts msg :
  ingest d name fpath ts msg
  = ingest d name fpath
      (if bool_decide (or_empty ts = "") then None else Some (or_empty ts)) msg.
Proof.
  unfold ingest. destruct ts as [s|]; simpl; [|done].
  case_bool_decide as Hs; simpl; [|by rewrite bool_decide_eq_false_2].
  subst s. simpl. done.
Qed.

Lemma on_match_summary name fpath lineno ln st :
  ∃ occ, on_match name fpath lineno ln st
         = ScanState (occurrences st ++ [occ]) (ingest_occ (summary st) occ) (errlog st)
         ∧ error_name occ = name ∧ file occ = path_str fpath ∧ line occ = lineno
         ∧ message occ = strip ln
         ∧ timestamp occ = or_empty (extract_timestamp ln).
Proof.
  exists (MkOccurrence name (path_str fpath) lineno (or_empty (extract_timestamp ln))
            (or_empty (extract_uuid ln)) (or_empty (extract_session_id ln)) (strip ln)).
  split; [|done]. unfold on_match. f_equal. apply ingest_or_empty.
Qed.

Lemma scan_line_replays pats fpath lineno ln st :
  summary st = aggregate (occurrences st) →
  summary (scan_line pats fpath lineno ln st)
  = aggregate (occurrences (scan_line pats fpath lineno ln st)).
Proof.
  intros H. destruct (scan_line_cases pats fpath lineno ln st) as [->|(n & _ & ->)];
    [done|].
  destruct (on_match_summary n fpath lineno ln st) as (occ & -> & _).
  simpl. unfold aggregate in *. rewrite foldl_app. simpl. by rewrite H.
Qed.

Lemma scan_lines_replays pats fpath lns : ∀ lineno st,
  summary st = aggregate (occurrences st) →
  summary (scan_lines pats fpath lineno lns st)
  = aggregate (occurrences (scan_lines pats fpath lineno lns st)).
Proof.
  induction lns as [|ln lns IH]; simpl; intros; [done|].
  apply IH. by apply scan_line_replays.
Qed.

Lemma foldl_scan_file_replays pats fs fls : ∀ st,
  summary st = aggregate (occurrences st) →
  summary (foldl (scan_file pats fs) st fls)
  = aggregate (occurrences (foldl (scan_file pats fs) st fls)).
Proof.
  induction fls as [|f fls IH]; simpl; intros st H; [done|].
  apply IH. unfold scan_file. destruct (open_lines fs f) as [lns err].
  pose proof (scan_lines_replays pats f lns 1 st H). by destruct err.
Qed.

Lemma analyze_files_with_replays pats fs fls :
  summary (analyze_files_with pats fs fls)
  = finalize (aggregate (occurrences (analyze_files_with pats fs fls))).
Proof.
  unfold analyze_files_with. simpl. f_equal.
  by apply foldl_scan_file_replays.
Qed.

(** ** Order of instants *)

Lemma lex_lt_asym a b : lex_lt a b = true → lex_lt b a = false.
Proof.
  intros H. destruct (lex_lt b a) eqn:H'; [|done].
  by rewrite <- (lex_lt_irrefl a), (lex_lt_trans _ _ _ H H').
Qed.

Lemma lex_lt_neg_trans c : ∀ a b,
  length c = length a → length b = length a →
  lex_lt c a = true → lex_lt c b = true ∨ lex_lt b a = true.
Proof.
  induction c as [|z c IH]; intros [|x a] [|y b]; simpl; try done.
  intros [= Hc] [= Hb].
  rewrite !orb_true_iff, !andb_true_iff, !Nat.ltb_lt, !Nat.eqb_eq.
  intros [Hzx|[-> Hca]].
  - destruct (decide (z < y)); [by left; left|right; left; lia].
  - destruct (Nat.lt_total x y) as [?|[->|?]]; [by left; left| |by right; left].
    destruct (IH a b Hc Hb Hca); [left|right]; by right.
Qed.

Lemma dt_le_trans a b c : dt_le a b = true → dt_le b c = true → dt_le a c = true.
Proof.
  unfold dt_le, dt_lt. rewrite !negb_true_iff. intros Hab Hbc.
  destruct (lex_lt (dt_key c) (dt_key a)) eqn:Hca; [|done].
  destruct (lex_lt_neg_trans (dt_key c) (dt_key a) (dt_key b) eq_refl eq_refl Hca);
    congruence.
Qed.

Lemma dt_lt_le a b : dt_lt a b = true → dt_le a b = true.
Proof. unfold dt_le, dt_lt. intros H. by rewrite (lex_lt_asym _ _ H). Qed.

(** ** Fields that the update of the bounds leaves alone *)

Lemma update_bounds_frame e ts :
  s_error_name (update_bounds e ts) = s_error_name e
  ∧ files (update_bounds e ts) = files e
  ∧ sample_message (update_bounds e ts) = sample_message e.
Proof.
  unfold update_bounds.
  repeat (case_bool_decide || case_match || simpl); done.
Qed.

(** The bounds after the update, for an entry whose bounds are set. *)
Lemma update_bounds_set e ts :
  first_seen e ≠ "" → last_seen e ≠ "" →
  update_bounds e ts
  = match parse_instant (first_seen e), parse_instant (last_seen e), parse_instant ts with
    | Some fdt, Some ldt, Some cdt =>
        let e := if dt_lt cdt fdt then with_first_seen e ts else e in
        if dt_lt ldt cdt then with_last_seen e ts else e
    | _, _, _ => e
    end.
Proof.
  intros Hf Hl. unfold update_bounds, parse_instant.
  rewrite (bool_decide_eq_false_2 (first_seen e = "")) by done.
  by rewrite (bool_decide_eq_false_2 (last_seen e = "")) by done.
Qed.

(** ... and for an entry whose bounds are empty. *)
Lemma update_bounds_unset e ts :
  first_seen e = "" → last_seen e = "" →
  first_seen (update_bounds e ts) = ts ∧ last_seen (update_bounds e ts) = ts.
Proof.
  intros Hf Hl. unfold update_bounds.
  rewrite (bool_decide_eq_true_2 (first_seen e = "")) by done. simpl.
  rewrite (bool_decide_eq_true_2 (last_seen e = "")) by done. simpl.
  destruct (fromisoformat (replace_space_T ts)) as [c|]; [|done].
  unfold dt_lt. by rewrite lex_lt_irrefl.
Qed.

(** ** One more occurrence of a name *)

Lemma elem_of_set_add x y s : x ∈ set_add y s ↔ x = y ∨ x ∈ s.
Proof.
  unfold set_add. case_bool_decide.
  - split; [by right|]. by intros [->|?].
  - rewrite elem_of_app, list_elem_of_singleton. tauto.
Qed.

Lemma NoDup_set_add y s : NoDup s → NoDup (set_add y s).
Proof.
  intros H. unfold set_add. case_bool_decide; [done|].
  apply NoDup_app. split; [done|]. split; [|apply NoDup_singleton].
  intros x Hx ->%list_elem_of_singleton. done.
Qed.

Lemma occurrence_ts_spec o :
  or_empty (occurrence_ts o) = timestamp o
  ∧ truthy (occurrence_ts o) = negb (bool_decide (timestamp o = "")).
Proof.
  unfold occurrence_ts. case_bool_decide as H; simpl; [done|].
  by rewrite bool_decide_eq_false_2.
Qed.

(** The entry before the bounds are looked at. *)
Lemma ingested_frame d name fpath ts msg :
  let e0 := default (MkSummaryEntry name 0 (or_empty ts) (or_empty ts) [] msg)
              (dict_get d name) in
  s_error_name (ingested d name fpath ts msg) = s_error_name e0
  ∧ files (ingested d name fpath ts msg) = set_add fpath (files e0)
  ∧ sample_message (ingested d name fpath ts msg) = sample_message e0.
Proof.
  intros e0. unfold ingested. fold e0.
  destruct (truthy ts); [|done].
  by destruct (update_bounds_frame
       (with_files (with_count e0 (count e0 + 1)) (set_add fpath (files e0)))
       (or_empty ts)) as (-> & -> & ->).
Qed.

Lemma ingested_basics d o L :
  match dict_get d (error_name o) with
  | None => L = []
  | Some e => L ≠ [] ∧ entry_basics (error_name o) L e
  end →
  entry_basics (error_name o) (L ++ [o])
    (ingested d (error_name o) (file o) (occurrence_ts o) (message o)).
Proof.
  intros H. unfold entry_basics.
  destruct (ingested_frame d (error_name o) (file o) (occurrence_ts o) (message o))
    as (-> & -> & ->).
  rewrite ingested_count, length_app, fmap_app. simpl.
  destruct (dict_get d (error_name o)) as [e|]; simpl.
  - destruct H as (HL & Hn & Hc & Hs & Hnd & Hf).
    repeat split; try done; try lia; try (by destruct L);
      try (by apply NoDup_set_add);
      rewrite elem_of_set_add, elem_of_app, list_elem_of_singleton, Hf; tauto.
  - subst L. repeat split; try done; try apply NoDup_singleton;
      rewrite elem_of_set_add; set_solver.
Qed.

Lemma bounded_empty e :
  bounded e → first_seen e = "" ∨ last_seen e = "" →
  first_seen e = "" ∧ last_seen e = "".
Proof.
  intros [Heq|(f & l & Hf & Hl & _)] H.
  - rewrite Heq in *. tauto.
  - destruct H as [H|H]; [by rewrite H in Hf|by rewrite H in Hl].
Qed.

Lemma elem_of_snoc_1 {A} (L : list A) o x : x ∈ L ++ [o] ↔ x ∈ L ∨ x = o.
Proof. by rewrite elem_of_app, list_elem_of_singleton. Qed.

(** A first occurrence: both bounds are its timestamp. *)
Lemma entry_bounds_single o e :
  first_seen e = timestamp o → last_seen e = timestamp o → entry_bounds [o] e.
Proof.
  intros Hf Hl. unfold entry_bounds. rewrite Hf, Hl. simpl.
  split; [left|]. split; [left|]. split; [left; congruence|].
  split.
  - intros Ht o' Ho'. apply list_elem_of_singleton in Ho'. by subst.
  - intros f l Hpf Hpl o' c Ho' Hc. apply list_elem_of_singleton in Ho'. subst o'.
    assert (c = f) by congruence. assert (c = l) by congruence. subst.
    split; apply dt_le_refl.
Qed.

(** The update of the bounds of an entry whose bounds are both [ts]. *)
Lemma update_bounds_same e ts :
  first_seen e = ts → last_seen e = ts →
  first_seen (update_bounds e ts) = ts ∧ last_seen (update_bounds e ts) = ts.
Proof.
  intros Hf Hl. destruct (decide (ts = "")) as [->|Hne].
  - by apply update_bounds_unset.
  - rewrite update_bounds_set by congruence. rewrite Hf, Hl.
    destruct (parse_instant ts) as [c|]; [|done].
    unfold dt_lt. by rewrite lex_lt_irrefl.
Qed.

(** The bounds stay when the new timestamp is blank or is not read as an
    instant while the bounds are, or when the bounds are not. *)
Lemma entry_bounds_snoc_keep L o e :
  entry_bounds L e →
  (first_seen e = "" → timestamp o = "") →
  (parse_instant (first_seen e) = None ∨ parse_instant (last_seen e) = None
   ∨ parse_instant (timestamp o) = None) →
  entry_bounds (L ++ [o]) e.
Proof.
  intros (Hf & Hl & Hb & He & Hr) Hblank Hnone. unfold entry_bounds.
  rewrite fmap_app, !elem_of_app.
  split; [by left|]. split; [by left|]. split; [done|]. split.
  - intros Hfe o' [?| ->]%elem_of_snoc_1; auto.
  - intros f l Hpf Hpl o' c [?| ->]%elem_of_snoc_1 Hc; eauto.
    destruct Hnone as [H|[H|H]]; congruence.
Qed.

Lemma entry_bounds_snoc L o e :
  entry_bounds L e → timestamp o ≠ "" →
  entry_bounds (L ++ [o]) (update_bounds e (timestamp o)).
Proof.
  intros HLe Ht. pose proof HLe as (Hf & Hl & Hb & He & Hr).
  assert (Hin : timestamp o ∈ timestamp <$> L ++ [o]).
  { rewrite fmap_app, elem_of_app. right. simpl. left. }
  assert (Hold : ∀ x, x ∈ timestamp <$> L → x ∈ timestamp <$> L ++ [o]).
  { intros x ?. rewrite fmap_app, elem_of_app. by left. }
  pose proof (update_bounds_bounded e (timestamp o) Hb) as Hb'.
  destruct (decide (first_seen e = "")) as [Hfe|Hfe].
  - (* the bounds were empty: both become the timestamp *)
    destruct (bounded_empty e Hb (or_introl Hfe)) as [_ Hle].
    destruct (update_bounds_unset e (timestamp o) Hfe Hle) as [Hf' Hl'].
    unfold entry_bounds. rewrite Hf', Hl'.
    split; [done|]. split; [done|]. split; [done|]. split; [done|].
    intros f l Hpf Hpl o' c [Ho'| ->]%elem_of_snoc_1 Hc.
    + by rewrite (He Hfe o' Ho') in Hc.
    + assert (c = f) by congruence. assert (c = l) by congruence. subst.
      split; apply dt_le_refl.
  - assert (Hle : last_seen e ≠ "").
    { intros E. by destruct (bounded_empty e Hb (or_intror E)). }
    rewrite (update_bounds_set e (timestamp o) Hfe Hle) in Hb' |- *.
    destruct (parse_instant (first_seen e)) as [fdt|] eqn:Hpf0;
      [|apply entry_bounds_snoc_keep; auto; done].
    destruct (parse_instant (last_seen e)) as [ldt|] eqn:Hpl0;
      [|apply entry_bounds_snoc_keep; auto; done].
    destruct (parse_instant (timestamp o)) as [cdt|] eqn:Hpc;
      [|apply entry_bounds_snoc_keep; auto; done].
    assert (Hfl : ∀ o' c, o' ∈ L → parse_instant (timestamp o') = Some c →
                    dt_le fdt c = true ∧ dt_le c ldt = true) by eauto.
    assert (Hfdl : dt_le fdt ldt = true) by (by apply (bounded_parsed e)).
    unfold entry_bounds.
    destruct (dt_lt cdt fdt) eqn:Hcf, (dt_lt ldt cdt) eqn:Hlc; simpl in *;
      (split; [auto|]); (split; [auto|]); (split; [done|]);
      (split; [intros; congruence|]);
      intros f l Hpf Hpl o' c [Ho'| ->]%elem_of_snoc_1 Hc;
      simplify_eq;
      try (destruct (Hfl o' c Ho' Hc) as [H1 H2]);
      split;
      eauto using dt_le_refl, dt_le_trans, dt_lt_le;
      unfold dt_le; by rewrite ?Hcf, ?Hlc.
Qed.

Lemma entry_bounds_ext L e e' :
  first_seen e = first_seen e' → last_seen e = last_seen e' →
  entry_bounds L e → entry_bounds L e'.
Proof.
  unfold entry_bounds, bounded. intros <- <-. done.
Qed.

(** The bounds after the update depend on the bounds before it only. *)
Lemma update_bounds_bounds e ts :
  (first_seen (update_bounds e ts), last_seen (update_bounds e ts))
  = bounds_after (first_seen e) (last_seen e) ts.
Proof.
  destruct e as [n c f l fl m]. unfold update_bounds, bounds_after, parse_instant.
  simpl.
  destruct (bool_decide (f = "")); simpl;
    destruct (bool_decide (l = "")); simpl;
    repeat match goal with
           | |- context [fromisoformat ?x] => destruct (fromisoformat x); simpl
           end;
    repeat match goal with
           | |- context [dt_lt ?a ?b] => destruct (dt_lt a b); simpl
           end;
    done.
Qed.

Lemma update_bounds_ext e e' ts :
  first_seen e = first_seen e' → last_seen e = last_seen e' →
  first_seen (update_bounds e ts) = first_seen (update_bounds e' ts)
  ∧ last_seen (update_bounds e ts) = last_seen (update_bounds e' ts).
Proof.
  intros Hf Hl.
  pose proof (update_bounds_bounds e ts) as H1.
  pose proof (update_bounds_bounds e' ts) as H2.
  rewrite Hf, Hl, <- H2 in H1. by simplify_eq.
Qed.

Lemma ingested_bounds d o L :
  match dict_get d (error_name o) with
  | None => L = []
  | Some e => entry_bounds L e
  end →
  entry_bounds (L ++ [o])
    (ingested d (error_name o) (file o) (occurrence_ts o) (message o)).
Proof.
  intros H. unfold ingested.
  destruct (occurrence_ts_spec o) as [-> ->].
  set (e0 := default _ (dict_get d (error_name o))).
  set (b := with_files (with_count e0 (count e0 + 1)) (set_add (file o) (files e0))).
  assert (Hbf : first_seen e0 = first_seen b) by done.
  assert (Hbl : last_seen e0 = last_seen b) by done.
  destruct (update_bounds_ext e0 b (timestamp o) Hbf Hbl) as [Huf Hul].
  destruct (dict_get d (error_name o)) as [e|] eqn:Hget; simpl in e0.
  - case_bool_decide as Ht; simpl.
    + apply (entry_bounds_ext _ e0); [done..|].
      apply entry_bounds_snoc_keep; [done|done|].
      right; right. by rewrite Ht.
    + apply (entry_bounds_ext _ (update_bounds e0 (timestamp o))); [done..|].
      by apply entry_bounds_snoc.
  - subst L. simpl.
    case_bool_decide as Ht; simpl.
    + by apply entry_bounds_single.
    + apply entry_bounds_single.
      * rewrite <- Huf. by apply update_bounds_same.
      * rewrite <- Hul. by apply update_bounds_same.
Qed.

Lemma occs_of_snoc name occs o :
  occs_of name (occs ++ [o])
  = occs_of name occs ++ (if decide (error_name o = name) then [o] else []).
Proof.
  unfold occs_of. rewrite filter_app. f_equal.
Qed.

Lemma aggregate_snoc occs o : aggregate (occs ++ [o]) = ingest_occ (aggregate occs) o.
Proof. unfold aggregate. by rewrite foldl_app. Qed.

(** After any list of occurrences, the entry of every name agrees with the
    occurrences of that name. *)
Lemma aggregate_agrees occs : ∀ name, entry_agrees name occs (aggregate occs).
Proof.
  induction occs as [|o occs IH] using rev_ind; intros name; [done|].
  unfold entry_agrees in *.
  rewrite aggregate_snoc, occs_of_snoc. unfold ingest_occ.
  rewrite ingest_unfold, dict_get_set.
  destruct (decide (error_name o = name)) as [Ho|Ho].
  - rewrite bool_decide_eq_true_2 by done. subst name.
    specialize (IH (error_name o)).
    split; [by destruct (occs_of (error_name o) occs)|]. split.
    + apply ingested_basics.
      destruct (dict_get (aggregate occs) (error_name o)); [|done]. tauto.
    + apply ingested_bounds.
      destruct (dict_get (aggregate occs) (error_name o)); [|done]. tauto.
  - rewrite bool_decide_eq_false_2, app_nil_r by done. apply IH.
Qed.

(** The keys of the summary are distinct. *)
Lemma dict_set_keys d k v :
  (dict_set d k v).*1 = if bool_decide (k ∈ d.*1) then d.*1 else d.*1 ++ [k].
Proof.
  induction d as [|[k' v'] d IH]; [done|].
  rewrite fmap_cons. cbn [dict_set fst].
  destruct (decide (k' = k)) as [->|Hk].
  - rewrite (bool_decide_eq_true_2 (k = k)) by done.
    rewrite bool_decide_eq_true_2 by left. done.
  - rewrite (bool_decide_eq_false_2 (k' = k)) by done.
    rewrite fmap_cons, IH. cbn [fst].
    destruct (decide (k ∈ d.*1)) as [Hin|Hin].
    + rewrite (bool_decide_eq_true_2 (k ∈ d.*1)) by done.
      rewrite bool_decide_eq_true_2 by (by right). done.
    + rewrite (bool_decide_eq_false_2 (k ∈ d.*1)) by done.
      rewrite bool_decide_eq_false_2; [done|].
      intros [?|?]%elem_of_cons; congruence.
Qed.

Lemma aggregate_keys_NoDup occs : NoDup (aggregate occs).*1.
Proof.
  induction occs as [|o occs IH] using rev_ind; [constructor|].
  rewrite aggregate_snoc. unfold ingest_occ. rewrite ingest_unfold, dict_set_keys.
  case_bool_decide as Hin; [done|].
  apply NoDup_app. split; [done|]. split; [|apply NoDup_singleton].
  intros x Hx Hx'. apply list_elem_of_singleton in Hx'. by subst.
Qed.

Lemma dict_get_elem_of_key d k v : dict_get d k = Some v → (k, v) ∈ d.
Proof.
  induction d as [|[k' v'] d IH]; simpl; [done|].
  case_bool_decide; intros Hget; simplify_eq; [left|right; auto].
Qed.

Lemma dict_get_NoDup d k v : NoDup d.*1 → (k, v) ∈ d → dict_get d k = Some v.
Proof.
  induction d as [|[k' v'] d IH]; simpl; [by intros _ ?%elem_of_nil|].
  intros [Hk Hd]%NoDup_cons [Heq|Hin]%elem_of_cons.
  - simplify_eq. by rewrite bool_decide_eq_true_2.
  - rewrite bool_decide_eq_false_2; [auto|].
    intros ->. apply Hk. apply list_elem_of_fmap. by exists (k, v).
Qed.

Lemma finalize_keys d : (finalize d).*1 = d.*1.
Proof. unfold finalize. induction d as [|[k v] d IH]; simpl; by f_equal. Qed.

(** ** What the summary says about the occurrences *)

(** An entry of the returned summary is an entry of the replay, its files
    sorted. *)
Lemma summary_entry fs fls name e :
  dict_get (summary (analyze_files fs fls)) name = Some e →
  ∃ e0, dict_get (aggregate (occurrences (analyze_files fs fls))) name = Some e0
        ∧ e = with_files e0 (sorted string_leb (files e0))
        ∧ occs_of name (occurrences (analyze_files fs fls)) ≠ []
        ∧ entry_basics name (occs_of name (occurrences (analyze_files fs fls))) e0
        ∧ entry_bounds (occs_of name (occurrences (analyze_files fs fls))) e0.
Proof.
  unfold analyze_files. rewrite analyze_files_with_replays, dict_get_finalize.
  pose proof (aggregate_agrees (occurrences (analyze_files_with compiled fs fls)) name) as H.
  unfold entry_agrees in H.
  destruct (dict_get _ name) as [e0|]; [|done].
  intros [= <-]. exists e0. tauto.
Qed.

Lemma summary_no_entry fs fls name :
  dict_get (summary (analyze_files fs fls)) name = None
  ↔ occs_of name (occurrences (analyze_files fs fls)) = [].
Proof.
  unfold analyze_files. rewrite analyze_files_with_replays, dict_get_finalize.
  pose proof (aggregate_agrees (occurrences (analyze_files_with compiled fs fls)) name) as H.
  unfold entry_agrees in H.
  destruct (dict_get _ name) as [e0|]; simpl; [|done].
  split; [done|]. intros. tauto.
Qed.

Lemma summary_replays_keys fs fls :
  (summary (analyze_files fs fls)).*1
  = (aggregate (occurrences (analyze_files fs fls))).*1.
Proof.
  unfold analyze_files. by rewrite analyze_files_with_replays, finalize_keys.
Qed.

(** X1: the summary is a function of the list of occurrences alone.
    Ingesting the occurrences that [analyze_files] returns, one by one and
    in their order, into an empty summary, and sorting each set of files,
    gives the summary that it returns. *)
Theorem summary_replays_occurrences (fs : filesystem) (fls : list Path) :
  summary (analyze_files fs fls)
  = finalize (aggregate (occurrences (analyze_files fs fls))).
Proof. apply analyze_files_with_replays. Qed.

(** X2: the summary has an entry for an error name exactly when some
    occurrence has that name; the entry carries that name, and its count is
    the number of occurrences of that name. *)
Theorem entry_counts_its_occurrences
    (fs : filesystem) (fls : list Path) (name : string) :
  (dict_get (summary (analyze_files fs fls)) name = None
   ↔ occs_of name (occurrences (analyze_files fs fls)) = [])
  ∧ ∀ e, dict_get (summary (analyze_files fs fls)) name = Some e →
         s_error_name e = name
         ∧ count e = length (occs_of name (occurrences (analyze_files fs fls))).
Proof.
  split; [apply summary_no_entry|].
  intros e He. destruct (summary_entry _ _ _ _ He) as (e0 & _ & -> & _ & Hb & _).
  destruct Hb as (Hn & Hc & _). done.
Qed.

Lemma entry_counts_its_occurrences_witness :
  count example_network_entry
  = length (occs_of "NetworkError"
              (occurrences (analyze_files example_fs
                              [["logs"; "a.txt"]; ["logs"; "b.txt"]]))).
Proof.
  refine (proj2 (proj2 (entry_counts_its_occurrences example_fs
                          [["logs"; "a.txt"]; ["logs"; "b.txt"]] "NetworkError")
                   example_network_entry _)).
  vm_compute; reflexivity.
Defined.

(** X3: the files of an entry are the files of the occurrences of its name:
    each once, in increasing order of the path strings. *)
Theorem entry_files_are_the_sorted_set
    (fs : filesystem) (fls : list Path) (name : string) (e : SummaryEntry) :
  dict_get (summary (analyze_files fs fls)) name = Some e →
  StronglySorted str_le (files e)
  ∧ NoDup (files e)
  ∧ ∀ f, f ∈ files e
         ↔ ∃ o, o ∈ occurrences (analyze_files fs fls)
                ∧ error_name o = name ∧ file o = f.
Proof.
  intros He. destruct (summary_entry _ _ _ _ He) as (e0 & _ & -> & _ & Hb & _).
  destruct Hb as (_ & _ & _ & Hnd & Hf). simpl.
  split; [|split].
  - apply Sorted_StronglySorted; [apply _|].
    apply (sorted_Sorted string_leb string_leb_total).
  - by rewrite sorted_perm.
  - intros f. rewrite sorted_perm, Hf, list_elem_of_fmap. unfold occs_of.
    split.
    + intros (o & -> & Ho). apply list_elem_of_filter in Ho as [? ?]. eauto.
    + intros (o & Ho & Hn & <-). exists o. split; [done|].
      by apply list_elem_of_filter.
Qed.

Lemma entry_files_are_the_sorted_set_witness :
  NoDup (files example_proxy_entry).
Proof.
  refine (proj1 (proj2 (entry_files_are_the_sorted_set example_fs
                          [["logs"; "a.txt"]; ["logs"; "b.txt"]] "Proxy403"
                          example_proxy_entry _))).
  vm_compute; reflexivity.
Defined.

(** X4: the sample message of an entry is the message of the first
    occurrence of its name. *)
Theorem sample_message_is_of_first_occurrence
    (fs : filesystem) (fls : list Path) (name : string) (e : SummaryEntry) :
  dict_get (summary (analyze_files fs fls)) name = Some e →
  ∃ o rest, occs_of name (occurrences (analyze_files fs fls)) = o :: rest
            ∧ sample_message e = message o.
Proof.
  intros He. destruct (summary_entry _ _ _ _ He) as (e0 & _ & -> & HL & Hb & _).
  destruct Hb as (_ & _ & Hs & _). simpl.
  destruct (occs_of name _) as [|o rest]; [done|].
  exists o, rest. split; [done|]. simpl in Hs. congruence.
Qed.

Lemma sample_message_is_of_first_occurrence_witness :
  ∃ o rest, occs_of "Proxy403"
              (occurrences (analyze_files example_fs
                              [["logs"; "a.txt"]; ["logs"; "b.txt"]])) = o :: rest
            ∧ sample_message example_proxy_entry = message o.
Proof.
  refine (sample_message_is_of_first_occurrence example_fs
            [["logs"; "a.txt"]; ["logs"; "b.txt"]] "Proxy403"
            example_proxy_entry _).
  vm_compute; reflexivity.
Defined.

(** X5: each bound of an entry is the timestamp of an occurrence of its
    name; the bounds are empty exactly when no occurrence of the name has a
    timestamp; and when both bounds are read as instants, every timestamp
    of the name that is read as an instant lies between them. *)
Theorem bounds_enclose_the_timestamps
    (fs : filesystem) (fls : list Path) (name : string) (e : SummaryEntry) :
  dict_get (summary (analyze_files fs fls)) name = Some e →
  let L := occs_of name (occurrences (analyze_files fs fls)) in
  first_seen e ∈ timestamp <$> L
  ∧ last_seen e ∈ timestamp <$> L
  ∧ (first_seen e = "" ↔ ∀ o, o ∈ L → timestamp o = "")
  ∧ (last_seen e = "" ↔ first_seen e = "")
  ∧ ∀ f l, parse_instant (first_seen e) = Some f →
           parse_instant (last_seen e) = Some l →
           ∀ o c, o ∈ L → parse_instant (timestamp o) = Some c →
                  dt_le f c = true ∧ dt_le c l = true.
Proof.
  intros He L. destruct (summary_entry _ _ _ _ He) as (e0 & _ & -> & HL & _ & Hb).
  fold L in HL, Hb. destruct Hb as (Hf & Hl & Hbd & Hblank & Hr). simpl.
  split; [done|]. split; [done|]. split; [|split; [|done]].
  - split; [done|]. intros Hall.
    apply list_elem_of_fmap in Hf as (o & -> & Ho). auto.
  - split; intros E.
    + by destruct (bounded_empty e0 Hbd (or_intror E)).
    + by destruct (bounded_empty e0 Hbd (or_introl E)).
Qed.

Lemma bounds_enclose_the_timestamps_witness :
  first_seen example_network_entry
  ∈ timestamp <$> occs_of "NetworkError"
                    (occurrences (analyze_files example_fs
                                    [["logs"; "a.txt"]; ["logs"; "b.txt"]])).
Proof.
  refine (proj1 (bounds_enclose_the_timestamps example_fs
                   [["logs"; "a.txt"]; ["logs"; "b.txt"]] "NetworkError"
                   example_network_entry _)).
  vm_compute; reflexivity.
Defined.

(** Every occurrence is named after a pattern of the registry. *)
Lemma scan_line_names pats fpath lineno ln st :
  Forall (λ o, error_name o ∈ pats.*1) (occurrences st) →
  Forall (λ o, error_name o ∈ pats.*1) (occurrences (scan_line pats fpath lineno ln st)).
Proof.
  intros H. destruct (scan_line_cases pats fpath lineno ln st) as [->|(n & Hn & ->)];
    [done|]. simpl. apply Forall_app. split; [done|]. by repeat constructor.
Qed.

Lemma scan_lines_names pats fpath lns : ∀ lineno st,
  Forall (λ o, error_name o ∈ pats.*1) (occurrences st) →
  Forall (λ o, error_name o ∈ pats.*1) (occurrences (scan_lines pats fpath lineno lns st)).
Proof.
  induction lns as [|ln lns IH]; simpl; intros; [done|].
  apply IH. by apply scan_line_names.
Qed.

Lemma analyze_files_with_names pats fs fls :
  Forall (λ o, error_name o ∈ pats.*1) (occurrences (analyze_files_with pats fs fls)).
Proof.
  unfold analyze_files_with. simpl.
  assert (H : ∀ st, Forall (λ o, error_name o ∈ pats.*1) (occurrences st) →
            Forall (λ o, error_name o ∈ pats.*1)
              (occurrences (foldl (scan_file pats fs) st fls))).
  { induction fls as [|f fls IH]; simpl; intros st Hst; [done|].
    apply IH. unfold scan_file. destruct (open_lines fs f) as [lns err].
    pose proof (scan_lines_names pats f lns 1 st Hst). by destruct err. }
  apply H. constructor.
Qed.

(** X6: the summary has one entry for each error name that occurs: its
    keys are distinct, each is the name of a pattern of [ERROR_PATTERNS] and
    the [error_name] of its entry, so there are at most nine entries. *)
Theorem summary_keys_are_registered_names (fs : filesystem) (fls : list Path) :
  NoDup (summary (analyze_files fs fls)).*1
  ∧ Forall (λ kv, kv.1 ∈ ERROR_PATTERNS.*1 ∧ s_error_name kv.2 = kv.1)
      (summary (analyze_files fs fls))
  ∧ length (summary (analyze_files fs fls)) ≤ 9.
Proof.
  assert (Hnd : NoDup (summary (analyze_files fs fls)).*1).
  { rewrite summary_replays_keys. apply aggregate_keys_NoDup. }
  assert (Hall : Forall (λ kv, kv.1 ∈ ERROR_PATTERNS.*1 ∧ s_error_name kv.2 = kv.1)
                   (summary (analyze_files fs fls))).
  { apply Forall_forall. intros [k e] Hin. simpl.
    apply (dict_get_NoDup _ _ _ Hnd) in Hin.
    destruct (summary_entry _ _ _ _ Hin) as (e0 & _ & -> & HL & Hb & _).
    destruct Hb as (Hn & _). split; [|done].
    destruct (occs_of k _) as [|o rest] eqn:Ho; [done|].
    assert (Hin' : o ∈ occs_of k (occurrences (analyze_files fs fls)))
      by (rewrite Ho; left).
    apply list_elem_of_filter in Hin' as [<- Hin'].
    pose proof (analyze_files_with_names compiled fs fls) as Hnames.
    apply (proj1 (Forall_forall _ _) Hnames o Hin'). }
  split; [done|]. split; [done|].
  rewrite <- (length_fmap fst).
  change 9 with (length ERROR_PATTERNS.*1).
  apply submseteq_length, NoDup_submseteq; [done|].
  intros k Hk. apply list_elem_of_fmap in Hk as ([k' e] & -> & Hin).
  apply (proj1 (Forall_forall _ _) Hall (k', e) Hin).
Qed.

(** ** Occurrences, line by line *)

Lemma scan_line_occurrences pats fpath lineno ln st :
  occurrences (scan_line pats fpath lineno ln st)
  = occurrences st ++ option_list (line_occurrence pats fpath lineno ln).
Proof.
  unfold line_occurrence.
  induction pats as [|[n r] pats IH]; simpl; [by rewrite app_nil_r|].
  by destruct (re_search true r ln).
Qed.

Lemma scan_lines_occurrences pats fpath lns : ∀ lineno st,
  occurrences (scan_lines pats fpath lineno lns st)
  = occurrences st
    ++ omap id (imap (λ i ln, line_occurrence pats fpath (lineno + i) ln) lns).
Proof.
  induction lns as [|ln lns IH]; intros lineno st; simpl; [by rewrite app_nil_r|].
  rewrite IH, scan_line_occurrences, <- app_assoc. f_equal.
  rewrite Nat.add_0_r.
  assert (Himap : imap ((λ i ln0, line_occurrence pats fpath (lineno + i) ln0) ∘ S) lns
                  = imap (λ i ln0, line_occurrence pats fpath (S lineno + i) ln0) lns).
  { apply imap_ext. intros i x _. simpl. f_equal. lia. }
  rewrite Himap. by destruct (line_occurrence pats fpath lineno ln).
Qed.

Lemma scan_file_occurrences pats fs st fpath :
  occurrences (scan_file pats fs st fpath)
  = occurrences st ++ file_occurrences pats fs fpath.
Proof.
  unfold scan_file, file_occurrences. destruct (open_lines fs fpath) as [lns err].
  assert (H : occurrences (scan_lines pats fpath 1 lns st)
              = occurrences st
                ++ omap id (imap (λ i ln, line_occurrence pats fpath (S i) ln) lns))
    by apply scan_lines_occurrences.
  by destruct err.
Qed.

Lemma foldl_scan_file_occurrences pats fs fls : ∀ st,
  occurrences (foldl (scan_file pats fs) st fls)
  = occurrences st ++ (fls ≫= file_occurrences pats fs).
Proof.
  induction fls as [|f fls IH]; intros st; simpl; [by rewrite app_nil_r|].
  by rewrite IH, scan_file_occurrences, <- app_assoc.
Qed.

Lemma analyze_files_occurrences fs fls :
  occurrences (analyze_files fs fls) = fls ≫= file_occurrences compiled fs.
Proof.
  unfold analyze_files, analyze_files_with. simpl.
  by rewrite foldl_scan_file_occurrences.
Qed.

(** X7: the files are scanned independently of each other.  The
    occurrences of a run are those of each file scanned alone, put one
    after the other in the order of the files; so the occurrences of two
    lists of files put together are those of the first list followed by
    those of the second. *)
Theorem occurrences_of_files_concatenate (fs : filesystem) (fls fls' : list Path) :
  occurrences (analyze_files fs fls)
  = fls ≫= (λ f, occurrences (analyze_files fs [f]))
  ∧ occurrences (analyze_files fs (fls ++ fls'))
    = occurrences (analyze_files fs fls) ++ occurrences (analyze_files fs fls').
Proof.
  split.
  - rewrite analyze_files_occurrences. apply list_bind_ext; [|done].
    intros f. rewrite analyze_files_occurrences. simpl. by rewrite app_nil_r.
  - by rewrite !analyze_files_occurrences, bind_app.
Qed.

(** X8: the occurrences are the lines read in which a pattern is found.  An
    occurrence is returned exactly when one of the files has, among the
    lines read from it, a line in which some pattern is found; the
    occurrence then carries the name of the first such pattern, the path of
    the file as a string, the number of the line counted from 1, and the
    line stripped as its message. *)
Theorem occurrences_are_the_matching_lines
    (fs : filesystem) (fls : list Path) (occ : Occurrence) :
  occ ∈ occurrences (analyze_files fs fls)
  ↔ ∃ f i ln name,
      f ∈ fls
      ∧ (open_lines fs f).1 !! i = Some ln
      ∧ first_match compiled ln = Some name
      ∧ occ = occurrence_at name f (S i) ln.
Proof.
  rewrite analyze_files_occurrences, list_elem_of_bind.
  unfold file_occurrences, line_occurrence. split.
  - intros (f & Hocc & Hf).
    apply list_elem_of_omap in Hocc as (o & Ho & Hid). simpl in Hid. subst o.
    apply elem_of_lookup_imap in Ho as (i & ln & Hocc & Hln).
    destruct (first_match compiled ln) as [name|] eqn:Hm; [|done].
    simpl in Hocc. simplify_eq. by exists f, i, ln, name.
  - intros (f & i & ln & name & Hf & Hln & Hm & ->).
    exists f. split; [|done].
    apply list_elem_of_omap. exists (Some (occurrence_at name f (S i) ln)).
    split; [|done]. apply elem_of_lookup_imap. exists i, ln. by rewrite Hm.
Qed.

(** ** Input paths *)

Lemma collect_inputs_cons fs inp inputs :
  (collect_inputs fs (inp :: inputs)).1
  = l ← input_files fs inp; (l ++.) <$> (collect_inputs fs inputs).1.
Proof.
  simpl. unfold input_files.
  destruct (is_dir fs (Path_of inp)) as [[]|]; [| |done].
  - destruct (rglob_txt fs (Path_of inp)); [|done].
    by destruct (collect_inputs fs inputs).
  - destruct (is_file fs (Path_of inp)) as [[]|]; [| |done];
      destruct (collect_inputs fs inputs) as [[files|] warns]; done.
Qed.

Lemma collect_inputs_warns_cons fs inp inputs :
  (collect_inputs fs (inp :: inputs)).2
  = match input_files fs inp with
    | None => []
    | Some _ => (if absent fs inp then [not_found inp] else [])
                ++ (collect_inputs fs inputs).2
    end.
Proof.
  simpl. unfold input_files, absent.
  destruct (is_dir fs (Path_of inp)) as [[]|]; [| |done].
  - destruct (rglob_txt fs (Path_of inp)); [|done].
    by destruct (collect_inputs fs inputs).
  - destruct (is_file fs (Path_of inp)) as [[]|]; [| |done];
      destruct (collect_inputs fs inputs) as [[files|] warns]; done.
Qed.

Lemma collect_inputs_Some fs inputs : ∀ files,
  (collect_inputs fs inputs).1 = Some files →
  ∀ p, p ∈ files ↔ ∃ inp l, inp ∈ inputs ∧ input_files fs inp = Some l ∧ p ∈ l.
Proof.
  induction inputs as [|inp inputs IH]; intros files.
  - intros [= <-] p. split; [by intros ?%elem_of_nil|].
    by intros (? & ? & ?%elem_of_nil & _).
  - rewrite collect_inputs_cons.
    destruct (input_files fs inp) as [l|] eqn:Hl; [|done]. simpl.
    destruct (collect_inputs fs inputs).1 as [rest|]; [|done]. simpl.
    intros [= <-] p. rewrite elem_of_app, (IH rest eq_refl). split.
    + intros [Hp|(x & l' & Hx & Hl' & Hp)].
      * exists inp, l. split; [left|done].
      * exists x, l'. split; [by right|done].
    + intros (x & l' & [->|Hx]%elem_of_cons & Hl' & Hp).
      * left. congruence.
      * right. eauto.
Qed.

Lemma collect_inputs_None fs inputs :
  (collect_inputs fs inputs).1 = None
  ↔ ∃ inp, inp ∈ inputs ∧ input_files fs inp = None.
Proof.
  induction inputs as [|inp inputs IH].
  - split; [done|]. by intros (? & ?%elem_of_nil & _).
  - rewrite collect_inputs_cons.
    destruct (input_files fs inp) as [l|] eqn:Hl; simpl.
    + destruct (collect_inputs fs inputs).1 as [rest|]; simpl.
      * split; [done|]. intros (x & [->|Hx]%elem_of_cons & Hn); [congruence|].
        destruct IH as [_ IH]. by discriminate IH; eauto.
      * split; [|done]. intros _. destruct IH as [IH _].
        destruct (IH eq_refl) as (x & Hx & Hn). exists x. split; [by right|done].
    + split; [|done]. intros _. exists inp. split; [left|done].
Qed.

Lemma absent_input_files fs inp : absent fs inp = true → input_files fs inp = Some [].
Proof.
  unfold absent, input_files.
  rewrite andb_true_iff, !bool_decide_eq_true. by intros [-> ->].
Qed.

(** X9: an input that names neither a directory nor a file only costs a
    warning, as long as examining the inputs raises nothing: then the
    warnings are one for each such input, in the order of the inputs, and
    the files found are those found without these inputs.  When examining
    an input raises (a name too long for the system, a directory that may
    not be searched), nothing is returned, and the warnings printed are
    those of the inputs before it. *)
Theorem missing_inputs_only_warn (fs : filesystem) (inputs : list string) :
  (Forall (λ inp, raises fs inp = false) inputs →
     is_Some (iter_input_files fs inputs)
     ∧ (collect_inputs fs inputs).2
       = not_found <$> filter (λ inp, absent fs inp = true) inputs
     ∧ iter_input_files fs inputs
       = iter_input_files fs (filter (λ inp, absent fs inp = false) inputs))
  ∧ (∀ pre inp post,
       inputs = pre ++ inp :: post →
       Forall (λ inp, raises fs inp = false) pre →
       raises fs inp = true →
       iter_input_files fs inputs = None
       ∧ (collect_inputs fs inputs).2
         = not_found <$> filter (λ inp, absent fs inp = true) pre).
Proof.
  assert (Hwarn : ∀ l, Forall (λ inp, raises fs inp = false) l →
            ∀ rest, (collect_inputs fs (l ++ rest)).2
            = (not_found <$> filter (λ inp, absent fs inp = true) l)
              ++ (collect_inputs fs rest).2).
  { induction 1 as [|x l Hx Hl IH]; intros rest; [done|].
    change ((x :: l) ++ rest) with (x :: (l ++ rest)).
    rewrite collect_inputs_warns_cons, IH.
    apply bool_decide_eq_false in Hx.
    destruct (input_files fs x) as [lx|] eqn:E; [|done].
    destruct (absent fs x) eqn:Ha.
    - by rewrite filter_cons_True by done.
    - rewrite filter_cons_False by (rewrite Ha; done). done. }
  split.
  - intros Hall.
    assert (Hsome : is_Some (collect_inputs fs inputs).1).
    { destruct (collect_inputs fs inputs).1 eqn:E; [done|].
      apply collect_inputs_None in E as (x & Hx & Hn).
      rewrite Forall_forall in Hall. specialize (Hall x Hx).
      apply bool_decide_eq_false in Hall. done. }
    split; [|split].
    + unfold iter_input_files. destruct Hsome as [files ->]. done.
    + specialize (Hwarn inputs Hall []). rewrite app_nil_r in Hwarn.
      by rewrite Hwarn, app_nil_r.
    + destruct Hsome as [files Hf].
      destruct (collect_inputs fs (filter (λ inp, absent fs inp = false) inputs)).1
        as [files'|] eqn:Hf'.
      * unfold iter_input_files. rewrite Hf, Hf'. simpl. f_equal.
        apply sorted_set_paths. intros p.
        rewrite (collect_inputs_Some _ _ _ Hf), (collect_inputs_Some _ _ _ Hf').
        split.
        -- intros (x & l & Hx & Hl & Hp). exists x, l. split; [|done].
           apply list_elem_of_filter. split; [|done].
           destruct (absent fs x) eqn:Ha; [|done].
           rewrite (absent_input_files _ _ Ha) in Hl. simplify_eq.
           by apply elem_of_nil in Hp.
        -- intros (x & l & [_ Hx]%list_elem_of_filter & Hl & Hp). eauto.
      * apply collect_inputs_None in Hf' as (x & [_ Hx]%list_elem_of_filter & Hn).
        rewrite Forall_forall in Hall. specialize (Hall x Hx).
        apply bool_decide_eq_false in Hall. done.
  - intros pre inp post -> Hpre Hr. apply bool_decide_eq_true in Hr. split.
    + unfold iter_input_files.
      assert ((collect_inputs fs (pre ++ inp :: post)).1 = None) as ->; [|done].
      apply collect_inputs_None. exists inp. split; [|done].
      apply elem_of_app. right. left.
    + rewrite (Hwarn pre Hpre), collect_inputs_warns_cons, Hr. by rewrite app_nil_r.
Qed.

Lemma missing_inputs_only_warn_witness :
  (collect_inputs example_fs ["missing"; "logs"; "logs/none"]).2
  = [not_found "missing"; not_found "logs/none"].
Proof.
  refine (eq_trans (proj1 (proj2 (proj1 (missing_inputs_only_warn example_fs
                                           ["missing"; "logs"; "logs/none"]) _))) _).
  - repeat constructor.
  - vm_compute; reflexivity.
Defined.

(** X10: the order of the inputs and their repetitions do not matter: two
    lists with the same inputs give the same list of files. *)
Theorem input_order_is_irrelevant (fs : filesystem) (inputs1 inputs2 : list string) :
  (∀ inp, inp ∈ inputs1 ↔ inp ∈ inputs2) →
  iter_input_files fs inputs1 = iter_input_files fs inputs2.
Proof.
  intros H. unfold iter_input_files.
  destruct (collect_inputs fs inputs1).1 as [files1|] eqn:E1,
    (collect_inputs fs inputs2).1 as [files2|] eqn:E2; simpl.
  - f_equal. apply sorted_set_paths. intros p.
    rewrite (collect_inputs_Some _ _ _ E1), (collect_inputs_Some _ _ _ E2).
    split; intros (inp & l & Hin & Hp); exists inp, l; (split; [by apply H|done]).
  - apply collect_inputs_None in E2 as (x & Hx & Hn). apply H in Hx.
    assert ((collect_inputs fs inputs1).1 = None) by (apply collect_inputs_None; eauto).
    congruence.
  - apply collect_inputs_None in E1 as (x & Hx & Hn). apply H in Hx.
    assert ((collect_inputs fs inputs2).1 = None) by (apply collect_inputs_None; eauto).
    congruence.
  - done.
Qed.

Lemma input_order_is_irrelevant_witness :
  iter_input_files example_fs ["logs"; "missing"; "logs/a.txt"]
  = iter_input_files example_fs ["logs/a.txt"; "logs"; "logs"; "missing"].
Proof.
  refine (input_order_is_irrelevant example_fs _ _ _).
  intros inp. rewrite !elem_of_cons, !elem_of_nil. tauto.
Defined.

(** ** What the walk finds *)

Lemma walk_app fs n1 : ∀ loc n2,
  walk fs loc (n1 ++ n2)
  = match walk fs loc n1 with Ok l1 => walk fs l1 n2 | Err e => Err e end.
Proof.
  induction n1 as [|x n1 IH]; simpl; intros loc n2; [done|].
  destruct (enter fs loc x); [apply IH|done].
Qed.

Lemma entry_name_spec x :
  entry_name x = true →
  x ≠ ".." ∧ is_root x = false ∧ utf8_length x ≤ NAME_MAX
  ∧ existsb (λ a, code a =? 0) (list_ascii_of_string x) = false.
Proof.
  unfold entry_name. rewrite !andb_true_iff, !negb_true_iff, !bool_decide_eq_false.
  rewrite Nat.leb_le. intros ((((_ & _) & Hdd) & Hch) & Hlen).
  split; [done|]. split; [|split; [done|]].
  - unfold is_root. apply orb_false_iff.
    split; apply bool_decide_eq_false; intros ->; done.
  - induction (list_ascii_of_string x) as [|a l IH]; [done|].
    simpl in *. apply andb_true_iff in Hch as [Ha Hl].
    apply andb_true_iff in Ha as [_ Ha]. apply negb_true_iff in Ha.
    rewrite Ha. by apply IH.
Qed.

Lemma walk_found fs rel : ∀ base,
  (∀ k, k < length rel → listable fs (base ++ take k rel) = true) →
  Forall (λ x, entry_name x = true) rel →
  walk fs base rel = Ok (base ++ rel).
Proof.
  induction rel as [|x rel IH]; intros base Hl Hn; [by rewrite app_nil_r|].
  apply Forall_cons in Hn as [Hx Hn]. simpl.
  pose proof (Hl 0 ltac:(simpl; lia)) as H0. simpl in H0. rewrite app_nil_r in H0.
  unfold listable in H0. apply andb_true_iff in H0 as [He Hd].
  apply bool_decide_eq_true in He. apply negb_true_iff in Hd.
  destruct (entry_name_spec _ Hx) as (Hdd & _ & Hlen & _).
  unfold enter. rewrite He, Hd.
  rewrite bool_decide_eq_false_2 by done.
  assert ((NAME_MAX <? utf8_length x) = false) as -> by (apply Nat.ltb_ge; lia).
  rewrite (cons_middle x base rel), app_assoc. apply IH; [|done].
  intros k Hk. rewrite <- app_assoc. apply (Hl (S k)). simpl. lia.
Qed.

Lemma found_spec fs base loc :
  found fs base loc = true
  ↔ ∃ rel, loc = base ++ rel ∧ rel ≠ []
           ∧ is_Some (nodes fs !! loc)
           ∧ (∀ k, k < length rel → listable fs (base ++ take k rel) = true)
           ∧ Forall (λ x, entry_name x = true) rel.
Proof.
  unfold found. rewrite !andb_true_iff, !bool_decide_eq_true, Nat.ltb_lt.
  rewrite !forallb_forall. split.
  - intros ((((Hpre & Hlen) & Hn) & Hl) & Hnames).
    exists (drop (length base) loc).
    assert (Hloc : loc = base ++ drop (length base) loc).
    { rewrite <- (take_drop (length base) loc) at 1. by rewrite Hpre. }
    split; [done|]. split.
    { intros E. rewrite E, app_nil_r in Hloc. subst. lia. }
    split; [done|]. split.
    + intros k Hk. rewrite length_drop in Hk.
      specialize (Hl (length base + k)).
      rewrite Hloc, take_app_add in Hl. apply Hl.
      rewrite <- Hloc. apply in_seq. lia.
    + apply Forall_forall. intros x Hx. apply Hnames. by apply list_elem_of_In.
  - intros (rel & -> & Hne & Hn & Hl & Hnames).
    rewrite take_app_length, drop_app_length, length_app.
    repeat split; try done.
    + destruct rel; [done|]. simpl. lia.
    + intros k [Hk1 Hk2]%in_seq.
      replace k with (length base + (k - length base)) by lia.
      rewrite take_app_add. apply Hl. lia.
    + intros x Hx. rewrite Forall_forall in Hnames. apply Hnames.
      by apply list_elem_of_In.
Qed.

Lemma elem_of_rglob_txt fs q l p :
  is_dir fs q = Some true → rglob_txt fs q = Some l →
  p ∈ l ↔ ∃ base rel,
      locate fs q = Ok base ∧ p = q ++ rel ∧ found fs base (base ++ rel) = true
      ∧ ends_with_txt (path_name (base ++ rel)) = true.
Proof.
  intros Hd. unfold rglob_txt. rewrite Hd.
  destruct (locate fs q) as [base|e] eqn:Hl.
  2:{ apply is_dir_true in Hd as (? & ? & _). congruence. }
  destruct (existsb _ _); [done|]. intros [= <-].
  rewrite list_elem_of_fmap. split.
  - intros (loc & -> & Hloc). apply list_elem_of_filter in Hloc as [[Hf He] _].
    apply Is_true_true in Hf, He.
    pose proof Hf as (rel & -> & _)%found_spec.
    exists base, rel. by rewrite drop_app_length.
  - intros (base' & rel & [= <-] & -> & Hf & He).
    exists (base ++ rel). rewrite drop_app_length. split; [done|].
    apply list_elem_of_filter. split; [by rewrite Hf, He|].
    apply found_spec in Hf as (rel' & _ & _ & [n Hn] & _).
    apply list_elem_of_fmap. exists (base ++ rel, n). split; [done|].
    by apply elem_of_map_to_list.
Qed.

Lemma path_name_app q rel :
  rel ≠ [] → path_name (q ++ rel) = path_name rel.
Proof.
  intros Hne. unfold path_name.
  destruct rel as [|x rel] using rev_ind; [done|].
  by rewrite app_assoc, !last_snoc.
Qed.

Lemma is_file_true fs p :
  is_file fs p = Some true ↔ ∃ i, stat fs p = Ok (NFile i).
Proof.
  unfold is_file. destruct (stat fs p) as [[|i]|e]; split; try done; eauto;
    try (by intros [? ?]). by destruct (ignored e).
Qed.

Lemma stat_file_input fs inp i :
  stat fs (Path_of inp) = Ok (NFile i) → input_files fs inp = Some [Path_of inp].
Proof. intros H. unfold input_files, is_dir, is_file. by rewrite H. Qed.

(** X11: which paths are input files.  A path is returned exactly when it
    is the path of an input that names a file (whatever its name), or it is
    the path of an input that names a directory followed by the names that
    lead from that directory down to an entry of the file system, through
    directories that can be listed, and its name ends in [.txt]. *)
Theorem input_files_are_given_or_txt
    (fs : filesystem) (inputs : list string) (fls : list Path) (p : Path) :
  iter_input_files fs inputs = Some fls →
  p ∈ fls
  ↔ ∃ inp, inp ∈ inputs
           ∧ ((is_file fs (Path_of inp) = Some true ∧ p = Path_of inp)
              ∨ (is_dir fs (Path_of inp) = Some true
                 ∧ ∃ base rel,
                     locate fs (Path_of inp) = Ok base
                     ∧ p = Path_of inp ++ rel ∧ rel ≠ []
                     ∧ is_Some (nodes fs !! (base ++ rel))
                     ∧ (∀ k, k < length rel →
                          listable fs (base ++ take k rel) = true)
                     ∧ Forall (λ x, entry_name x = true) rel
                     ∧ ends_with_txt (path_name p) = true)).
Proof.
  intros Hfls. pose proof Hfls as (files & Hf & _)%iter_input_files_Some.
  rewrite (elem_of_iter_input_files _ _ _ _ p Hfls Hf), (collect_inputs_Some _ _ _ Hf).
  split.
  - intros (inp & l & Hin & Hl & Hp). exists inp. split; [done|].
    unfold input_files in Hl.
    destruct (is_dir fs (Path_of inp)) as [[]|] eqn:Hd; [| |done].
    + right. split; [done|].
      apply (elem_of_rglob_txt _ _ _ p Hd Hl) in Hp as (base & rel & Hb & -> & Hfd & He).
      apply found_spec in Hfd as (rel' & ->%app_inv_head & Hne & Hn & Hlist & Hnames).
      exists base, rel'. rewrite path_name_app in * by done. done.
    + left. destruct (is_file fs (Path_of inp)) as [[]|]; simplify_eq.
      * by apply list_elem_of_singleton in Hp.
      * by apply elem_of_nil in Hp.
  - intros (inp & Hin & [[Hfile ->]|(Hd & base & rel & Hb & -> & Hne & Hn & Hl & Hnames & He)]).
    + apply is_file_true in Hfile as [i Hi].
      exists inp, [Path_of inp]. split; [done|]. split; [by apply (stat_file_input _ _ i)|left].
    + destruct (rglob_txt fs (Path_of inp)) as [l|] eqn:Hr.
      * exists inp, l. split; [done|]. split; [unfold input_files; by rewrite Hd|].
        apply (elem_of_rglob_txt _ _ _ _ Hd Hr). exists base, rel.
        rewrite path_name_app in * by done. repeat split; try done.
        apply found_spec. by exists rel.
      * assert ((collect_inputs fs inputs).1 = None); [|congruence].
        apply collect_inputs_None. exists inp. split; [done|].
        unfold input_files. by rewrite Hd.
Qed.

Lemma input_files_are_given_or_txt_witness :
  ["logs"; "b.txt"] ∈ [["logs"; "a.txt"]; ["logs"; "b.txt"]].
Proof.
  refine (proj2 (input_files_are_given_or_txt example_fs ["logs"; "missing"]
                   [["logs"; "a.txt"]; ["logs"; "b.txt"]] ["logs"; "b.txt"] _) _).
  - vm_compute; reflexivity.
  - exists "logs". split; [left|]. right. split; [vm_compute; reflexivity|].
    exists ["srv"; "logs"], ["b.txt"].
    split; [vm_compute; reflexivity|]. split; [reflexivity|]. split; [done|].
    split; [vm_compute; eauto|]. split.
    + intros k Hk. destruct k as [|k]; [vm_compute; reflexivity|simpl in Hk; lia].
    + split; [|vm_compute; reflexivity]. repeat constructor.
Defined.

(** ** Paths and the files they name *)

Lemma elem_of_file_occurrences pats fs f occ :
  occ ∈ file_occurrences pats fs f
  ↔ ∃ k ln name, (open_lines fs f).1 !! k = Some ln
                 ∧ first_match pats ln = Some name
                 ∧ occ = occurrence_at name f (S k) ln.
Proof.
  unfold file_occurrences, line_occurrence. split.
  - intros Hocc.
    apply list_elem_of_omap in Hocc as (o & Ho & Hid). simpl in Hid. subst o.
    apply elem_of_lookup_imap in Ho as (k & ln & Hocc & Hln).
    destruct (first_match pats ln) as [name|] eqn:Hm; [|done].
    simpl in Hocc. simplify_eq. by exists k, ln, name.
  - intros (k & ln & name & Hln & Hm & ->).
    apply list_elem_of_omap. exists (Some (occurrence_at name f (S k) ln)).
    split; [|done]. apply elem_of_lookup_imap. exists k, ln. by rewrite Hm.
Qed.

Lemma open_lines_same_file fs p1 p2 i :
  stat fs p1 = Ok (NFile i) → stat fs p2 = Ok (NFile i) →
  (open_lines fs p2).1 = (open_lines fs p1).1.
Proof.
  intros H1 H2. unfold open_lines. rewrite H1, H2.
  destruct (store fs !! i) as [d|]; [|done]. by destruct (fault d) as [[n msg]|].
Qed.

Lemma iter_input_files_two fs inp1 inp2 i1 i2 :
  stat fs (Path_of inp1) = Ok (NFile i1) →
  stat fs (Path_of inp2) = Ok (NFile i2) →
  iter_input_files fs [inp1; inp2]
  = Some (sorted path_leb (remove_dups [Path_of inp1; Path_of inp2])).
Proof.
  intros H1 H2. unfold iter_input_files.
  rewrite !collect_inputs_cons.
  by rewrite (stat_file_input _ _ _ H1), (stat_file_input _ _ _ H2).
Qed.

(** C8, as the program has it: the input files are told apart by the value
    of their path, that is by its parts, neither by the text of the
    argument nor by the file that the path names.  For every list of
    inputs the result is sorted, has no two equal paths, and holds exactly
    the paths that were collected.  Two inputs that name the same file (the
    same inode [i]) are one entry when their paths have the same parts,
    however they were typed, and the file is then scanned once; they are
    two entries when the parts differ, and then every line of the file in
    which a pattern is found is recorded twice, once under each path. *)
Theorem input_files_told_apart_by_path_value
    (fs : filesystem) (inputs : list string) (fls : list Path) :
  iter_input_files fs inputs = Some fls →
  NoDup fls
  ∧ StronglySorted path_le fls
  ∧ (∀ p, p ∈ fls ↔ ∃ inp l, inp ∈ inputs ∧ input_files fs inp = Some l ∧ p ∈ l)
  ∧ ∀ inp1 inp2 i,
      node_at fs (Path_of inp1) = Some (NFile i) →
      node_at fs (Path_of inp2) = Some (NFile i) →
      (inp1 ∈ inputs → inp2 ∈ inputs → Path_of inp1 ∈ fls ∧ Path_of inp2 ∈ fls)
      ∧ (Path_of inp1 = Path_of inp2 →
           iter_input_files fs [inp1; inp2] = Some [Path_of inp1]
           ∧ occurrences (analyze_files fs [Path_of inp1])
             = file_occurrences compiled fs (Path_of inp1))
      ∧ (Path_of inp1 ≠ Path_of inp2 →
           ∃ both,
             iter_input_files fs [inp1; inp2] = Some both
             ∧ both ≡ₚ [Path_of inp1; Path_of inp2]
             ∧ (open_lines fs (Path_of inp2)).1 = (open_lines fs (Path_of inp1)).1
             ∧ (∀ k ln name,
                  (open_lines fs (Path_of inp1)).1 !! k = Some ln →
                  first_match compiled ln = Some name →
                  occurrence_at name (Path_of inp1) (S k) ln
                    ∈ occurrences (analyze_files fs both)
                  ∧ occurrence_at name (Path_of inp2) (S k) ln
                    ∈ occurrences (analyze_files fs both))
             ∧ length (occurrences (analyze_files fs both))
               = 2 * length (occurrences (analyze_files fs [Path_of inp1]))).
Proof.
  intros Hfls. pose proof Hfls as (files & Hf & _)%iter_input_files_Some.
  split; [by apply (iter_input_files_NoDup fs inputs)|].
  split; [by apply (iter_input_files_sorted fs inputs)|].
  split.
  { intros p. rewrite (elem_of_iter_input_files _ _ _ _ p Hfls Hf).
    apply (collect_inputs_Some _ _ _ Hf). }
  intros inp1 inp2 i H1%node_at_Some H2%node_at_Some.
  split; [|split].
  - intros Hin1 Hin2.
    rewrite !(elem_of_iter_input_files _ _ _ _ _ Hfls Hf), !(collect_inputs_Some _ _ _ Hf).
    split.
    + exists inp1, [Path_of inp1].
      split; [done|]. split; [by apply (stat_file_input _ _ i)|left].
    + exists inp2, [Path_of inp2].
      split; [done|]. split; [by apply (stat_file_input _ _ i)|left].
  - intros Heq. split.
    + rewrite (iter_input_files_two _ _ _ _ _ H1 H2), <- Heq. simpl.
      destruct (decide_rel elem_of (Path_of inp1) [Path_of inp1]) as [_|Hn]; [done|].
      destruct Hn. left.
    + rewrite analyze_files_occurrences. simpl. by rewrite app_nil_r.
  - intros Hne.
    exists (sorted path_leb (remove_dups [Path_of inp1; Path_of inp2])).
    assert (Hperm : sorted path_leb (remove_dups [Path_of inp1; Path_of inp2])
                    ≡ₚ [Path_of inp1; Path_of inp2]).
    { rewrite sorted_perm. simpl.
      destruct (decide_rel elem_of (Path_of inp1) [Path_of inp2]) as [Hin|_]; [|done].
      by apply list_elem_of_singleton in Hin. }
    pose proof (open_lines_same_file _ _ _ _ H1 H2) as Hlines.
    split; [by apply (iter_input_files_two _ _ _ i i)|].
    split; [done|]. split; [done|]. split.
    + intros k ln name Hln Hm. rewrite analyze_files_occurrences.
      split; apply list_elem_of_bind.
      * exists (Path_of inp1). split; [|rewrite Hperm; left].
        apply elem_of_file_occurrences. by exists k, ln, name.
      * exists (Path_of inp2). split; [|rewrite Hperm; right; left].
        apply elem_of_file_occurrences. exists k, ln, name. by rewrite Hlines.
    + rewrite !analyze_files_length.
      symmetry in Hperm.
      apply Permutation_length_2_inv in Hperm as [-> | ->]; simpl; rewrite Hlines; lia.
Qed.

Lemma input_files_told_apart_by_path_value_witness :
  ∃ both,
    iter_input_files example_fs ["logs/a.txt"; "logs/../logs/a.txt"] = Some both
    ∧ length (occurrences (analyze_files example_fs both))
      = 2 * length (occurrences (analyze_files example_fs [Path_of "logs/a.txt"])).
Proof.
  destruct (proj2 (proj2 (proj2 (proj2 (proj2 (input_files_told_apart_by_path_value
      example_fs ["logs/a.txt"; "logs/../logs/a.txt"]
      [["logs"; ".."; "logs"; "a.txt"]; ["logs"; "a.txt"]] eq_refl)))
      "logs/a.txt" "logs/../logs/a.txt" 1 eq_refl eq_refl)))
    as (both & Hb & _ & _ & _ & Hlen).
  - intros H. discriminate H.
  - exists both. split; [exact Hb|exact Hlen].
Defined.

(** The arguments [logs/a.txt] and [./logs//a.txt] differ as texts and name
    the same file, but they are not both retained: their paths have the
    same parts, so one path is returned, and the three lines of the file in
    which a pattern is found are recorded once each, not twice. *)
Lemma same_path_typed_twice_is_kept_once :
  let inputs := ["logs/a.txt"; "./logs//a.txt"] in
  "logs/a.txt" ≠ "./logs//a.txt"
  ∧ node_at example_fs (Path_of "logs/a.txt") = Some (NFile 1)
  ∧ node_at example_fs (Path_of "./logs//a.txt") = Some (NFile 1)
  ∧ iter_input_files example_fs inputs = Some [["logs"; "a.txt"]]
  ∧ length (occurrences (analyze_files example_fs [["logs"; "a.txt"]])) = 3
  ∧ (λ fls, length (occurrences (analyze_files example_fs fls)))
      <$> iter_input_files example_fs inputs = Some 3.
Proof. vm_compute. repeat split. intros H. discriminate H. Qed.
